(** * Unicode property-name lookup (ICU [propname.cpp], formatVersion 2)

    A shallow embedding of [source/common/propname.cpp] and its
    verification against the natural-language specification.

    Conventions of the embedding.

    - [char] is [ascii] (eight bits).  [code c] is the byte as an unsigned
      number, i.e. the C++ cast [(uint8_t)c]; [int_of_char c] is the value
      the C++ expression [c] has after integer promotion, which depends on
      whether plain [char] is signed on the platform ([Platform]).
    - [int32_t] is [Z].  Signed overflow of an addition, subtraction or
      multiplication and reads outside an array are undefined behaviour
      in C++: the embedding makes both explicit, every function that
      computes on [int32_t] or reads a table returns an [option], and
      [None] stands for "no defined result".  A left shift is not
      undefined: it keeps the low 32 bits ([wrap32]), so that [i<<8] is
      [INT32_MIN] for [i] = 2^23.
    - A [const char *] argument is the list of bytes that starts at the
      pointer; the first NUL (or the end of the list, where the
      terminator sits) ends the C string.
    - The tables [valueMaps] and [nameGroups] ([propname_data.h]) are
      parameters.  The byte automaton ([ByteTrie]) is consumed through the
      interface [ByteTrie]. *)

From Stdlib Require Import ZArith Ascii List Lia Bool.
From Stdlib Require String.
Import String.StringSyntax.
Delimit Scope string_scope with string.
From stdpp Require Import base tactics option list.

Open Scope Z_scope.

(** ** Machine integers and characters *)

Definition int32_min : Z := -2147483648.
Definition int32_max : Z := 2147483647.

(** The value [z] as an [int32_t]; [None] when it is not representable
    (signed overflow). *)
Definition is_int32 (z : Z) : bool := (int32_min <=? z) && (z <=? int32_max).

Definition int32 (z : Z) : option Z := if is_int32 z then Some z else None.

(** The [int32_t] a left shift leaves of the exact result [z]: its low 32
    bits, read in two's complement. *)
Definition wrap32 (z : Z) : Z :=
  (z + 2147483648) mod 4294967296 - 2147483648.

(** What [(i<<8)>>8] leaves of a counter [i]: its low 24 bits, read in
    two's complement. *)
Definition packed_advance (i : Z) : Z :=
  (i + 8388608) mod 16777216 - 8388608.

Class Platform := { char_is_signed : bool }.

(** [(uint8_t)c] *)
Definition code (c : ascii) : Z := Z.of_N (N_of_ascii c).

(** [(char)z] for [z] in 0..255 *)
Definition char_of (z : Z) : ascii := ascii_of_N (Z.to_N z).

(** The promoted value of a [char]. *)
Definition int_of_char `{Platform} (c : ascii) : Z :=
  if char_is_signed && (128 <=? code c) then code c - 256 else code c.

(** Modelled from the spec: [uprv_asciitolower] (cstring.cpp) is not part
    of the sources at hand; the spec calls it the case fold of the 7-bit
    ordinal character set: the letters A..Z go to a..z, every other byte
    is unchanged. *)
Definition uprv_asciitolower `{Platform} (c : ascii) : ascii :=
  if (0x41 <=? int_of_char c) && (int_of_char c <=? 0x5a)
  then char_of (code c + 0x20) else c.

(** Modelled from the spec: [uprv_invCharToLowercaseAscii] (uinvchar.h) is
    not part of the sources at hand; reverse lookup always runs in the
    ordinal-character universe, where it is [uprv_asciitolower]. *)
Definition uprv_invCharToLowercaseAscii `{Platform} (c : ascii) : ascii :=
  uprv_asciitolower c.

(** Modelled from the spec: the "invalid enumeration" sentinel
    [UCHAR_INVALID_CODE] (unicode/uchar.h, not part of the sources at
    hand). *)
Definition UCHAR_INVALID_CODE : Z := -1.

(** The test shared by [getASCIIPropertyNameChar] and [containsName]:
    [c==0x2d || c==0x5f || c==0x20 || (0x09<=c && c<=0x0d)]. *)
Definition is_delimiter (c : Z) : bool :=
  (c =? 0x2d) || (c =? 0x5f) || (c =? 0x20) || ((0x09 <=? c) && (c <=? 0x0d)).

(** ** LooseNameComparator *)

Section Comparator.
Context `{Platform}.

(** The loop [for(i=0; (c=name[i++]) is a delimiter;) {}] started at
    index [i] of a string whose bytes from that index on are [name];
    yields the final [i] and [c]. *)
Fixpoint skip_delimiters (name : list ascii) (i : Z) : Z * ascii :=
  match name with
  | [] => (i + 1, zero)
  | c :: rest =>
      if is_delimiter (int_of_char c) then skip_delimiters rest (i + 1)
      else (i + 1, c)
  end.

(** The counter [i] is an [int32_t]; [i<<8] keeps its low 32 bits. *)
Definition getASCIIPropertyNameChar (name : list ascii) : option Z :=
  let '(i, c) := skip_delimiters name 0 in
  i ← int32 i;
  let hi := wrap32 (Z.shiftl i 8) in
  if negb (int_of_char c =? 0)
  then Some (Z.lor hi (code (uprv_asciitolower c)))
  else Some hi.

(** [name += n] on a string with [name] left. *)
Definition advance (name : list ascii) (n : Z) : option (list ascii) :=
  if (0 <=? n) && (n <=? Z.of_nat (length name))
  then Some (drop (Z.to_nat n) name) else None.

(** The [for(;;)] loop of the comparator; [fuel] bounds the number of
    iterations. *)
Fixpoint compare_loop (fuel : nat) (name1 name2 : list ascii) : option Z :=
  match fuel with
  | O => None
  | S fuel' =>
      r1 ← getASCIIPropertyNameChar name1;
      r2 ← getASCIIPropertyNameChar name2;
      if Z.land (Z.lor r1 r2) 0xff =? 0 then Some 0
      else
        let rc := Z.land r1 0xff - Z.land r2 0xff in
        if negb (r1 =? r2) && negb (rc =? 0) then Some rc
        else
          name1 ← advance name1 (Z.shiftr r1 8);
          name2 ← advance name2 (Z.shiftr r2 8);
          compare_loop fuel' name1 name2
  end.

Definition uprv_compareASCIIPropertyNames (name1 name2 : list ascii)
  : option Z :=
  compare_loop (S (length name1)) name1 name2.

(** *** The comparator as the specification words it *)

(** The stream of lowercased significant characters of a C string. *)
Fixpoint significant (s : list ascii) : list Z :=
  match s with
  | [] => []
  | c :: t =>
      if code c =? 0 then []
      else if is_delimiter (code c) then significant t
      else code (uprv_asciitolower c) :: significant t
  end.

(** Three-way lexicographic comparison of two streams; the end of a
    stream sorts before every character. *)
Fixpoint lex_compare (x y : list Z) : Z :=
  match x, y with
  | [], [] => 0
  | [], b :: _ => - b
  | a :: _, [] => a
  | a :: x', b :: y' => if a =? b then lex_compare x' y' else a - b
  end.

(** The length of the run of delimiters a string starts with. *)
Fixpoint delimiter_run (s : list ascii) : Z :=
  match s with
  | [] => 0
  | c :: t => if is_delimiter (code c) then 1 + delimiter_run t else 0
  end.

(** The strings the packed result [(advance<<8)|character] of
    [getASCIIPropertyNameChar] has room for: up to the terminator, no run
    of delimiters reaches 8388607 characters. *)
Fixpoint fits_packing (s : list ascii) : bool :=
  match s with
  | [] => true
  | c :: t =>
      if code c =? 0 then true
      else (delimiter_run s <? 8388607) && fits_packing t
  end.

(** A string that starts with a run of at least 8388607 delimiters and a
    significant character behind it: the advance count of that character
    has no room in the packed result. *)
Definition overflows (name : list ascii) : Prop :=
  8388608 ≤ (skip_delimiters name 0).1 ∧
  code (skip_delimiters name 0).2 ≠ 0.

(** [a] precedes or equals [b] under the comparator. *)
Definition loose_le (a b : list ascii) : Prop :=
  ∃ r, uprv_compareASCIIPropertyNames a b = Some r ∧ r ≤ 0.
End Comparator.

(** ** The byte automaton, as this file drives it *)

(** Modelled from the spec: the class [ByteTrie] is not part of the
    sources at hand.  The spec gives its capability interface: open an
    automaton of the blob, consume one byte, report whether the current
    position is a terminal with a value, and retrieve that value.  The
    C++ object is mutable, so every operation also yields the new
    state. *)
Class ByteTrie (T : Type) := {
  trie_at : Z → T;            (* ByteTrie trie(byteTries+offset) *)
  next : T → Z → bool * T;    (* trie.next(inByte) *)
  contains : T → bool * T;    (* trie.contains() *)
  getValue : T → Z            (* trie.getValue() *)
}.

(** Feeding a whole key, byte by byte, stopping at the first refusal. *)
Fixpoint feed {T} `{ByteTrie T} (trie : T) (key : list Z) : bool * T :=
  match key with
  | [] => contains trie
  | b :: key' =>
      let '(ok, trie) := next trie b in
      if ok then feed trie key' else (false, trie)
  end.

(** The automaton [trie] stores [alias] (under its loose key) with the
    value [v]. *)
Definition stores {T} `{ByteTrie T} `{Platform}
    (trie : T) (alias : list ascii) (v : Z) : Prop :=
  (feed trie (significant alias)).1 = true ∧
  getValue (feed trie (significant alias)).2 = v.

(** Modelled from the spec: a reference automaton over an explicit list of
    (key, value) pairs per blob offset, standing for the absent
    [ByteTrie]: [mt_keys] holds what is left of the keys that extend the
    bytes consumed so far. *)
Record model_trie := {
  mt_live : bool;
  mt_keys : list (list Z * Z);
  mt_value : Z
}.

Definition model_step (b : Z) (kv : list Z * Z) : option (list Z * Z) :=
  match kv.1 with
  | b' :: k => if b' =? b then Some (k, kv.2) else None
  | [] => None
  end.

Definition model_next (t : model_trie) (b : Z) : bool * model_trie :=
  if mt_live t then
    match omap (model_step b) (mt_keys t) with
    | [] => (false, {| mt_live := false; mt_keys := []; mt_value := mt_value t |})
    | ks => (true, {| mt_live := true; mt_keys := ks; mt_value := mt_value t |})
    end
  else (false, t).

Definition model_contains (t : model_trie) : bool * model_trie :=
  if mt_live t then
    match List.find (λ kv, match kv.1 with [] => true | _ => false end)
                    (mt_keys t) with
    | Some kv => (true, {| mt_live := true; mt_keys := mt_keys t; mt_value := kv.2 |})
    | None => (false, t)
    end
  else (false, t).

Definition model_ByteTrie (blob : Z → list (list Z * Z)) : ByteTrie model_trie :=
  {| trie_at off := {| mt_live := true; mt_keys := blob off; mt_value := 0 |};
     next := model_next;
     contains := model_contains;
     getValue := mt_value |}.

(** ** PropNameData *)

(** A [const char *] result: [NULL] or a pointer into [nameGroups], given
    by the bytes from the pointer to the end of the region. *)
Inductive pointer :=
  | NULL
  | Ptr (mem : list ascii).

(** The C string a pointer designates; [None] when no terminator follows
    in the region. *)
Fixpoint c_str `{Platform} (mem : list ascii) : option (list ascii) :=
  match mem with
  | [] => None
  | c :: rest =>
      if int_of_char c =? 0 then Some []
      else s ← c_str rest; Some (c :: s)
  end.

Module PropNameData.
Section PropNameData.
Context `{Platform}.
Context {T : Type} `{ByteTrie T}.
Variable valueMaps : list Z.
Variable nameGroups : list ascii.

(** [valueMaps[i]] *)
Definition word (i : Z) : option Z :=
  i ← int32 i;
  if i <? 0 then None else w ← valueMaps !! Z.to_nat i; int32 w.

(** [nameGroups+offset] *)
Definition nameGroups_at (offset : Z) : option (list ascii) :=
  if (0 <=? offset) && (offset <=? Z.of_nat (length nameGroups))
  then Some (drop (Z.to_nat offset) nameGroups) else None.

(** The [for] loop of [findProperty], with [numRanges] iterations
    left. *)
Fixpoint findProperty_loop (numRanges : nat) (i property : Z) : option Z :=
  match numRanges with
  | O => Some 0
  | S numRanges' =>
      start ← word i;
      i1 ← int32 (i + 1);
      end_ ← word i1;
      i ← int32 (i + 2);
      if property <? start then Some 0
      else if property <=? end_ then
        d ← int32 (property - start);
        d2 ← int32 (d * 2);
        int32 (i + d2)
      else
        n ← int32 (end_ - start);
        n1 ← int32 (n + 1);
        n2 ← int32 (n1 * 2);
        i ← int32 (i + n2);
        findProperty_loop numRanges' i property
  end.

Definition findProperty (property : Z) : option Z :=
  numRanges ← word 0;
  findProperty_loop (Z.to_nat numRanges) 1 property.

(** The loop over the ranges of values. *)
Fixpoint ranges_loop (numRanges : nat) (valueMapIndex value : Z)
  : option Z :=
  match numRanges with
  | O => Some 0
  | S numRanges' =>
      start ← word valueMapIndex;
      i1 ← int32 (valueMapIndex + 1);
      end_ ← word i1;
      valueMapIndex ← int32 (valueMapIndex + 2);
      if value <? start then Some 0
      else if value <=? end_ then
        j ← int32 (valueMapIndex + value);
        j ← int32 (j - start);
        word j
      else
        n ← int32 (end_ - start);
        n1 ← int32 (n + 1);
        valueMapIndex ← int32 (valueMapIndex + n1);
        ranges_loop numRanges' valueMapIndex value
  end.

(** The [do ... while] loop over the list of values; [fuel] bounds the
    number of iterations. *)
Fixpoint list_loop (fuel : nat)
    (valuesStart nameGroupOffsetsStart valueMapIndex value : Z)
  : option Z :=
  match fuel with
  | O => None
  | S fuel' =>
      v ← word valueMapIndex;
      if value <? v then Some 0
      else if value =? v then
        j ← int32 (nameGroupOffsetsStart + valueMapIndex);
        j ← int32 (j - valuesStart);
        word j
      else
        valueMapIndex ← int32 (valueMapIndex + 1);
        if valueMapIndex <? nameGroupOffsetsStart
        then list_loop fuel' valuesStart nameGroupOffsetsStart
                       valueMapIndex value
        else Some 0
  end.

Definition findPropertyValueNameGroup (valueMapIndex value : Z)
  : option Z :=
  if valueMapIndex =? 0 then Some 0
  else
    valueMapIndex ← int32 (valueMapIndex + 1);
    numRanges ← word valueMapIndex;
    valueMapIndex ← int32 (valueMapIndex + 1);
    if numRanges <? 0x10 then
      ranges_loop (Z.to_nat numRanges) valueMapIndex value
    else
      let valuesStart := valueMapIndex in
      s ← int32 (valueMapIndex + numRanges);
      nameGroupOffsetsStart ← int32 (s - 0x10);
      list_loop (S (Z.to_nat (numRanges - 0x10)))
                valuesStart nameGroupOffsetsStart valueMapIndex value.

(** [uprv_strchr(nameGroup, 0)+1] *)
Fixpoint after_terminator (nameGroup : list ascii) : option (list ascii) :=
  match nameGroup with
  | [] => None
  | c :: rest =>
      if int_of_char c =? 0 then Some rest else after_terminator rest
  end.

(** The loop [for(; nameIndex>0; --nameIndex)] of [getName]. *)
Fixpoint skip_names (nameIndex : nat) (nameGroup : list ascii)
  : option (list ascii) :=
  match nameIndex with
  | O => Some nameGroup
  | S nameIndex' =>
      nameGroup ← after_terminator nameGroup;
      skip_names nameIndex' nameGroup
  end.

Definition getName (nameGroup : list ascii) (nameIndex : Z)
  : option pointer :=
  match nameGroup with
  | [] => None
  | count :: nameGroup =>
      let numNames := int_of_char count in
      if (nameIndex <? 0) || (numNames <=? nameIndex) then Some NULL
      else
        empty_first ←
          (if nameIndex =? 0
           then c ← head nameGroup; Some (int_of_char c =? 0)
           else Some false);
        if empty_first : bool then Some NULL
        else Ptr <$> skip_names (Z.to_nat nameIndex) nameGroup
  end.

(** The [while] loop of [containsName]. *)
Fixpoint containsName_loop (trie : T) (name : list ascii) : bool * T :=
  match name with
  | [] => contains trie
  | c :: name =>
      if int_of_char c =? 0 then contains trie
      else
        let c := uprv_invCharToLowercaseAscii c in
        if is_delimiter (int_of_char c) then containsName_loop trie name
        else
          let '(ok, trie) := next trie (code c) in
          if negb ok then (false, trie)
          else containsName_loop trie name
  end.

(** [name] is [None] for the null pointer. *)
Definition containsName (trie : T) (name : option (list ascii))
  : bool * T :=
  match name with
  | None => (false, trie)
  | Some name => containsName_loop trie name
  end.

Definition getPropertyName (property nameChoice : Z) : option pointer :=
  valueMapIndex ← findProperty property;
  if valueMapIndex =? 0 then Some NULL
  else
    offset ← word valueMapIndex;
    nameGroup ← nameGroups_at offset;
    getName nameGroup nameChoice.

Definition getPropertyValueName (property value nameChoice : Z)
  : option pointer :=
  valueMapIndex ← findProperty property;
  if valueMapIndex =? 0 then Some NULL
  else
    i1 ← int32 (valueMapIndex + 1);
    valueMap ← word i1;
    nameGroupOffset ← findPropertyValueNameGroup valueMap value;
    if nameGroupOffset =? 0 then Some NULL
    else
      nameGroup ← nameGroups_at nameGroupOffset;
      getName nameGroup nameChoice.

Definition getPropertyOrValueEnum (byteTrieOffset : Z)
    (alias : option (list ascii)) : Z :=
  let trie := trie_at byteTrieOffset in
  let '(found, trie) := containsName trie alias in
  if found then getValue trie else UCHAR_INVALID_CODE.

Definition getPropertyEnum (alias : option (list ascii)) : Z :=
  getPropertyOrValueEnum 0 alias.

Definition getPropertyValueEnum (property : Z)
    (alias : option (list ascii)) : option Z :=
  valueMapIndex ← findProperty property;
  if valueMapIndex =? 0 then Some UCHAR_INVALID_CODE
  else
    i1 ← int32 (valueMapIndex + 1);
    valueMapIndex ← word i1;
    if valueMapIndex =? 0 then Some UCHAR_INVALID_CODE
    else
      byteTrieOffset ← word valueMapIndex;
      Some (getPropertyOrValueEnum byteTrieOffset alias).
End PropNameData.
End PropNameData.

(** ** Concrete platforms and inputs *)

Definition signed_chars : Platform := {| char_is_signed := true |}.
Definition unsigned_chars : Platform := {| char_is_signed := false |}.

(** A C string literal. *)
Definition str (s : String.string) : list ascii :=
  String.list_ascii_of_string s.
Arguments str s%_string.

(** A string of 8388607 hyphens: one more than the packed result of
    [getASCIIPropertyNameChar] has room to count. *)
Definition long_delimiter_run : list ascii :=
  replicate (Z.to_nat 8388607) (char_of 0x2d).

(** ** The property range table, decoded *)

(** The view the data model of the specification takes of region 1: a
    list of ranges, each with the records of its property codes.  The
    scan of [findProperty] is verified against it. *)

(** One range of the property range table: its bounds and, for each
    property code of the range, the record (name-group offset, value-map
    offset). *)
Record prop_range := {
  pr_start : Z;
  pr_end : Z;
  pr_records : list (Z * Z)
}.

Definition encode_records (recs : list (Z * Z)) : list Z :=
  flat_map (λ rec, [rec.1; rec.2]) recs.

Definition encode_range (r : prop_range) : list Z :=
  pr_start r :: pr_end r :: encode_records (pr_records r).

(** The words of region 1: [numRanges], then the ranges. *)
Definition encode_ranges (rs : list prop_range) : list Z :=
  Z.of_nat (length rs) :: flat_map encode_range rs.

Definition range_ok (r : prop_range) : bool :=
  (pr_start r <=? pr_end r) &&
  (Z.of_nat (length (pr_records r)) =? pr_end r - pr_start r + 1).

(** Ascending and disjoint: each range ends before the next one starts. *)
Fixpoint ascending (rs : list prop_range) : bool :=
  match rs with
  | r1 :: (r2 :: _) as rs' => (pr_end r1 <? pr_start r2) && ascending rs'
  | _ => true
  end.

(** A well-formed property range table: every range is non-empty and has
    one record per property code, the ranges ascend and are disjoint, and
    the words and their indices are [int32_t] values. *)
Definition well_formed_ranges (rs : list prop_range) : bool :=
  forallb range_ok rs && ascending rs &&
  forallb is_int32 (encode_ranges rs) &&
  (Z.of_nat (length (encode_ranges rs)) <=? int32_max).

Definition covers (r : prop_range) (property : Z) : bool :=
  (pr_start r <=? property) && (property <=? pr_end r).

(** The record of a property code; [None] when no range covers it. *)
Definition record_of (rs : list prop_range) (property : Z)
  : option (Z * Z) :=
  r ← List.find (λ r, covers r property) rs;
  pr_records r !! Z.to_nat (property - pr_start r).

(** The value maps the records point at can be read: a nonzero value-map
    offset is the index of a word of the table (the word that holds the
    offset of the property's automaton). *)
Definition value_maps_readable (valueMaps : list Z) (rs : list prop_range)
  : bool :=
  forallb (λ r,
    forallb (λ rec : Z * Z,
      (rec.2 =? 0) ||
      match PropNameData.word valueMaps rec.2 with
      | Some _ => true
      | None => false
      end) (pr_records r)) rs.

(** ** Loose variants of an alias *)

(** The other case of a letter of the 7-bit ordinal character set; every
    other byte is left alone. *)
Definition flip_case (c : ascii) : ascii :=
  if (0x41 <=? code c) && (code c <=? 0x5a) then char_of (code c + 0x20)
  else if (0x61 <=? code c) && (code c <=? 0x7a) then char_of (code c - 0x20)
  else c.

(** [loose_variant a b]: [b] is [a] with the case of any of its characters
    flipped and with delimiters ('-', '_', space, 0x09..0x0d) put in
    anywhere: in front, between two characters, or behind. *)
Inductive loose_variant : list ascii → list ascii → Prop :=
  | lv_nil : loose_variant [] []
  | lv_keep c a b : loose_variant a b → loose_variant (c :: a) (c :: b)
  | lv_flip c a b :
      loose_variant a b → loose_variant (c :: a) (flip_case c :: b)
  | lv_insert c a b :
      is_delimiter (code c) = true → loose_variant a b →
      loose_variant a (c :: b).

(** A string made of delimiters only. *)
Definition all_delimiters (s : list ascii) : Prop :=
  Forall (λ c, is_delimiter (code c) = true) s.

(** ** What a lookup returned *)

(** The lookup returned a pointer to the C string [s]. *)
Definition returns_name `{Platform} (r : option pointer) (s : list ascii)
  : Prop :=
  ∃ mem, r = Some (Ptr mem) ∧ c_str mem = Some s.

(** ** A table of two ranges *)

(** The properties 2..3 and the property 7. *)
Definition two_ranges : list prop_range :=
  [ {| pr_start := 2; pr_end := 3; pr_records := [(1, 0); (4, 0)] |};
    {| pr_start := 7; pr_end := 7; pr_records := [(8, 0)] |} ].

(** ** The scenario table of the specification *)

(** The loose key the table generator files an alias under. *)
Definition key (s : String.string) : list Z :=
  @significant signed_chars (str s).
Arguments key s%_string.

(** Region 1, the single range (0,2), and behind it the value map of the
    three properties, at offsetA = 9: dense, with the single range (0,1)
    of values, both named by the group at groupX = 1. *)
Definition scenario_ranges : list prop_range :=
  [ {| pr_start := 0; pr_end := 2;
       pr_records := [(13, 9); (13, 9); (13, 9)] |} ].

Definition scenario_valueMaps : list Z :=
  encode_ranges scenario_ranges ++
  [ 64;      (* the offset of the automaton of the value aliases *)
    1;       (* one range of values *)
    0; 1;    (* the values 0..1 *)
    1; 1 ].  (* their name group *)

(** Region 3: a pad byte, groupX = [{count:2, "Foo\0Foobar\0"}] at offset
    1, and the name group of the properties at offset 13. *)
Definition scenario_nameGroups : list ascii :=
  [zero] ++
  [char_of 2] ++ str "Foo" ++ [zero] ++ str "Foobar" ++ [zero] ++
  [char_of 1] ++ str "P" ++ [zero].

(** Region 4, as the generator fills it for this table. *)
Definition scenario_blob (offset : Z) : list (list Z * Z) :=
  if offset =? 64 then [(key "Foo", 0); (key "Foobar", 0)]
  else if offset =? 0 then [(key "P", 0)]
  else [].

(** An automaton that stores the sentinel itself as the value of the
    alias "x". *)
Definition sentinel_blob (offset : Z) : list (list Z * Z) :=
  if offset =? 64 then [(key "x", UCHAR_INVALID_CODE)] else [].

(** An automaton whose initial position is a terminal: it stores the
    empty key, with the value 7. *)
Definition empty_key_blob (offset : Z) : list (list Z * Z) :=
  if offset =? 0 then [([], 7)] else [].

(** ** Definitions for the further properties *)

(** ** Name groups, decoded *)

(** The bytes of a list of names, each with its terminator, and of a name
    group: the count of names, then the names. *)
Definition encode_names (names : list (list ascii)) : list ascii :=
  flat_map (λ name, name ++ [zero]) names.

Definition encode_group (names : list (list ascii)) : list ascii :=
  char_of (Z.of_nat (length names)) :: encode_names names.

(** No name holds a NUL, and the count fits a [char] of either
    signedness. *)
Definition names_ok (names : list (list ascii)) : Prop :=
  Z.of_nat (length names) < 128 ∧
  Forall (Forall (λ c, code c ≠ 0)) names.


(** ** The names the automata hold *)


(** ** A table with the automata that go with it *)





(** ** Value maps, decoded *)

(** One range of a dense value map: its bounds and the name-group offset
    of each value of the range. *)
Record value_range := {
  vr_start : Z;
  vr_end : Z;
  vr_groups : list Z
}.

Definition encode_value_range (r : value_range) : list Z :=
  vr_start r :: vr_end r :: vr_groups r.

(** The words of a dense value map: the automaton offset, the count of
    ranges, the ranges. *)
Definition dense_value_map (trieOffset : Z) (rs : list value_range)
  : list Z :=
  trieOffset :: Z.of_nat (length rs) :: flat_map encode_value_range rs.

Definition value_range_ok (r : value_range) : bool :=
  (vr_start r <=? vr_end r) &&
  (Z.of_nat (length (vr_groups r)) =? vr_end r - vr_start r + 1).

Fixpoint value_ranges_ascending (rs : list value_range) : bool :=
  match rs with
  | r1 :: (r2 :: _) as rs' =>
      (vr_end r1 <? vr_start r2) && value_ranges_ascending rs'
  | _ => true
  end.

Definition value_covers (r : value_range) (value : Z) : bool :=
  (vr_start r <=? value) && (value <=? vr_end r).

(** The name-group offset a dense value map holds for a value; [None]
    when no range covers the value. *)
Definition group_of (rs : list value_range) (value : Z) : option Z :=
  r ← List.find (λ r, value_covers r value) rs;
  vr_groups r !! Z.to_nat (value - vr_start r).

(** A well-formed dense value map at the index [valueMapIndex] of the
    table: fewer than 0x10 ranges, each with one offset per value, the
    ranges ascending and disjoint, the words [int32_t] values, and the
    index arithmetic of the scan (an index of the map plus a value of a
    range) within [int32_t]. *)
Definition well_formed_dense (valueMapIndex : Z) (trieOffset : Z)
    (rs : list value_range) : bool :=
  (Z.of_nat (length rs) <? 0x10) &&
  forallb value_range_ok rs && value_ranges_ascending rs &&
  forallb is_int32 (dense_value_map trieOffset rs) &&
  forallb (λ r,
    valueMapIndex + Z.of_nat (length (dense_value_map trieOffset rs))
      + vr_end r <=? int32_max) rs &&
  (valueMapIndex + Z.of_nat (length (dense_value_map trieOffset rs))
     <=? int32_max).

(** The words of a sparse value map: the automaton offset, 0x10 plus the
    count of values, the values, their name-group offsets. *)
Definition sparse_value_map (trieOffset : Z) (values groups : list Z)
  : list Z :=
  trieOffset :: (0x10 + Z.of_nat (length values)) :: values ++ groups.

(** The name-group offset a sparse value map holds for a value; 0 when
    the value is not listed. *)
Fixpoint sparse_group (values groups : list Z) (value : Z) : Z :=
  match values, groups with
  | v :: values', g :: groups' =>
      if value =? v then g else sparse_group values' groups' value
  | _, _ => 0
  end.

Fixpoint strictly_ascending (values : list Z) : bool :=
  match values with
  | v1 :: (v2 :: _) as values' => (v1 <? v2) && strictly_ascending values'
  | _ => true
  end.

(** A well-formed sparse value map at the index [valueMapIndex] of the
    table: at least one value, as many offsets as values, the values
    strictly ascending, the words [int32_t] values, and the index
    arithmetic of the scan (the sum of two indices of the map, and an
    index plus the count word) within [int32_t]. *)
Definition well_formed_sparse (valueMapIndex : Z) (trieOffset : Z)
    (values groups : list Z) : bool :=
  (1 <=? Z.of_nat (length values)) &&
  (Z.of_nat (length groups) =? Z.of_nat (length values)) &&
  strictly_ascending values &&
  forallb is_int32 (sparse_value_map trieOffset values groups) &&
  (2 * (valueMapIndex +
        Z.of_nat (length (sparse_value_map trieOffset values groups)))
     + 0x10 <=? int32_max).

(** The index of the record of a property code in region 1, when the
    first range starts at the index [base]; 0 when no range covers the
    code. *)
Fixpoint record_index (rs : list prop_range) (base property : Z) : Z :=
  match rs with
  | [] => 0
  | r :: rs' =>
      if covers r property then base + 2 + 2 * (property - pr_start r)
      else
        record_index rs'
          (base + 2 + 2 * Z.of_nat (length (pr_records r))) property
  end.

(** Consuming a key, byte by byte, stopping at the first refusal; unlike
    [feed] it does not ask whether the position reached is a terminal. *)
Fixpoint consume {T} `{ByteTrie T} (trie : T) (key : list Z) : bool * T :=
  match key with
  | [] => (true, trie)
  | b :: key' =>
      let '(ok, trie) := next trie b in
      if ok then consume trie key' else (false, trie)
  end.

(** ** LooseNameComparator, EBCDIC variant *)

(** The test of [getEBCDICPropertyNameChar]:
    [c==0x60 || c==0x6d || c==0x40 || c==0x05 || c==0x15 || c==0x25 ||
     c==0x0b || c==0x0c || c==0x0d]. *)
Definition is_ebcdic_delimiter (c : Z) : bool :=
  (c =? 0x60) || (c =? 0x6d) ||
  (c =? 0x40) || (c =? 0x05) || (c =? 0x15) || (c =? 0x25) ||
  (c =? 0x0b) || (c =? 0x0c) || (c =? 0x0d).

Section EbcdicComparator.
Context `{Platform}.

(** [uprv_ebcdictolower] (cstring.cpp) is not part of the sources at
    hand: the case fold of the EBCDIC universe is a parameter. *)
Variable uprv_ebcdictolower : ascii → ascii.

Fixpoint skip_ebcdic_delimiters (name : list ascii) (i : Z) : Z * ascii :=
  match name with
  | [] => (i + 1, zero)
  | c :: rest =>
      if is_ebcdic_delimiter (int_of_char c)
      then skip_ebcdic_delimiters rest (i + 1)
      else (i + 1, c)
  end.

Definition getEBCDICPropertyNameChar (name : list ascii) : option Z :=
  let '(i, c) := skip_ebcdic_delimiters name 0 in
  i ← int32 i;
  let hi := wrap32 (Z.shiftl i 8) in
  if negb (int_of_char c =? 0)
  then Some (Z.lor hi (code (uprv_ebcdictolower c)))
  else Some hi.

Fixpoint compare_ebcdic_loop (fuel : nat) (name1 name2 : list ascii)
  : option Z :=
  match fuel with
  | O => None
  | S fuel' =>
      r1 ← getEBCDICPropertyNameChar name1;
      r2 ← getEBCDICPropertyNameChar name2;
      if Z.land (Z.lor r1 r2) 0xff =? 0 then Some 0
      else
        let rc := Z.land r1 0xff - Z.land r2 0xff in
        if negb (r1 =? r2) && negb (rc =? 0) then Some rc
        else
          name1 ← advance name1 (Z.shiftr r1 8);
          name2 ← advance name2 (Z.shiftr r2 8);
          compare_ebcdic_loop fuel' name1 name2
  end.

Definition uprv_compareEBCDICPropertyNames (name1 name2 : list ascii)
  : option Z :=
  compare_ebcdic_loop (S (length name1)) name1 name2.

(** The stream of case-folded significant characters of an EBCDIC
    string. *)
Fixpoint significant_ebcdic (s : list ascii) : list Z :=
  match s with
  | [] => []
  | c :: t =>
      if code c =? 0 then []
      else if is_ebcdic_delimiter (code c) then significant_ebcdic t
      else code (uprv_ebcdictolower c) :: significant_ebcdic t
  end.

(** [b] is [a] with EBCDIC delimiters put in anywhere and with
    characters replaced by characters of the same case fold. *)
Inductive ebcdic_variant : list ascii → list ascii → Prop :=
  | ev_nil : ebcdic_variant [] []
  | ev_keep c a b : ebcdic_variant a b → ebcdic_variant (c :: a) (c :: b)
  | ev_fold c c' a b :
      code c ≠ 0 → code c' ≠ 0 →
      is_ebcdic_delimiter (code c) = false →
      is_ebcdic_delimiter (code c') = false →
      code (uprv_ebcdictolower c) = code (uprv_ebcdictolower c') →
      ebcdic_variant a b → ebcdic_variant (c :: a) (c' :: b)
  | ev_insert c a b :
      is_ebcdic_delimiter (code c) = true → ebcdic_variant a b →
      ebcdic_variant a (c :: b).
End EbcdicComparator.

Fixpoint ebcdic_delimiter_run (s : list ascii) : Z :=
  match s with
  | [] => 0
  | c :: t =>
      if is_ebcdic_delimiter (code c) then 1 + ebcdic_delimiter_run t else 0
  end.

(** As [fits_packing], for the EBCDIC delimiters. *)
Fixpoint fits_ebcdic_packing (s : list ascii) : bool :=
  match s with
  | [] => true
  | c :: t =>
      if code c =? 0 then true
      else (ebcdic_delimiter_run s <? 8388607) && fits_ebcdic_packing t
  end.

(** A case fold never yields the terminator for another byte. *)
Definition fold_keeps_nonzero (fold : ascii → ascii) : Prop :=
  ∀ c, code c ≠ 0 → code (fold c) ≠ 0.

(** A case fold for the examples: in EBCDIC the upper-case letters
    (0xc1..0xc9, 0xd1..0xd9, 0xe2..0xe9) lie 0x40 above the lower-case
    ones. *)
Definition ebcdic_letters_fold (c : ascii) : ascii :=
  if ((0xc1 <=? code c) && (code c <=? 0xc9)) ||
     ((0xd1 <=? code c) && (code c <=? 0xd9)) ||
     ((0xe2 <=? code c) && (code c <=? 0xe9))
  then char_of (code c - 0x40) else c.

(** * Verification *)

(** ** Characters *)

Ltac zbool :=
  repeat match goal with
    | |- context [Z.eqb ?a ?b] => destruct (Z.eqb_spec a b)
    | |- context [Z.leb ?a ?b] => destruct (Z.leb_spec a b)
    | |- context [Z.ltb ?a ?b] => destruct (Z.ltb_spec a b)
    | H : context [Z.eqb ?a ?b] |- _ => destruct (Z.eqb_spec a b)
    | H : context [Z.leb ?a ?b] |- _ => destruct (Z.leb_spec a b)
    | H : context [Z.ltb ?a ?b] |- _ => destruct (Z.ltb_spec a b)
    end;
  simpl in *; try done; try lia.

Lemma int32_Some z :
  int32_min ≤ z ≤ int32_max → int32 z = Some z.
Proof. unfold int32, is_int32. intros. zbool. Qed.

Lemma int32_inv z w : int32 z = Some w → w = z ∧ int32_min ≤ z ≤ int32_max.
Proof. unfold int32, is_int32. intros Hz. zbool. inversion Hz. lia. Qed.

Lemma code_range c : 0 ≤ code c < 256.
Proof.
  unfold code. pose proof (N_ascii_bounded c). lia.
Qed.

Lemma code_char_of z : 0 ≤ z < 256 → code (char_of z) = z.
Proof.
  intros Hz. unfold code, char_of.
  rewrite N_ascii_embedding by lia. lia.
Qed.

(** Facts about single characters are settled by going through the 256
    characters, on either kind of platform. *)
Ltac all_chars c :=
  match goal with H : Platform |- _ => destruct H as [[]] | _ => idtac end;
  destruct c as [[] [] [] [] [] [] [] []]; vm_compute; try reflexivity.

Section Chars.
Context `{Platform}.

Lemma int_of_char_is_zero c : (int_of_char c =? 0) = (code c =? 0).
Proof. all_chars c. Qed.

Lemma int_of_char_delimiter c :
  is_delimiter (int_of_char c) = is_delimiter (code c).
Proof. all_chars c. Qed.

Lemma code_asciitolower c :
  code (uprv_asciitolower c) =
  if (0x41 <=? code c) && (code c <=? 0x5a) then code c + 0x20 else code c.
Proof. all_chars c. Qed.

Lemma asciitolower_nonzero c :
  code c ≠ 0 → 0 < code (uprv_asciitolower c) < 256.
Proof. all_chars c; intros; done. Qed.

Lemma asciitolower_delimiter c :
  is_delimiter (code (uprv_asciitolower c)) = is_delimiter (code c).
Proof. all_chars c. Qed.

Lemma flip_case_is_zero c : (code (flip_case c) =? 0) = (code c =? 0).
Proof. all_chars c. Qed.

Lemma flip_case_delimiter c :
  is_delimiter (code (flip_case c)) = is_delimiter (code c).
Proof. all_chars c. Qed.

Lemma flip_case_asciitolower c :
  code (uprv_asciitolower (flip_case c)) = code (uprv_asciitolower c).
Proof. all_chars c. Qed.
End Chars.

(** ** The packed result of [getASCIIPropertyNameChar] *)

Lemma pack_value j ch :
  0 ≤ ch < 256 → Z.lor (Z.shiftl j 8) ch = j * 256 + ch.
Proof.
  intros Hch. rewrite Z.shiftl_mul_pow2 by lia.
  change (2 ^ 8) with 256.
  rewrite <- Z.add_nocarry_lor; [done|].
  apply Z.bits_inj'. intros n Hn.
  rewrite Z.land_spec, Z.bits_0.
  destruct (Z.lt_ge_cases n 8) as [Hlt|Hge].
  - replace (j * 256) with (j * 2 ^ 8) by done.
    rewrite Z.mul_pow2_bits_low by lia. done.
  - assert (Z.testbit ch n = false) as ->; [|by rewrite andb_false_r].
    destruct (Z.eq_dec ch 0) as [->|Hne]; [apply Z.bits_0|].
    apply Z.bits_above_log2; [lia|].
    assert (Z.log2 ch < 8); [|lia].
    apply Z.log2_lt_pow2; lia.
Qed.

Lemma pack_low j ch :
  0 ≤ ch < 256 → Z.land (Z.lor (Z.shiftl j 8) ch) 0xff = ch.
Proof.
  intros Hch. rewrite pack_value by done.
  change 0xff with (Z.ones 8). rewrite Z.land_ones by lia.
  change (2 ^ 8) with 256.
  rewrite Z.add_comm, Z.mod_add by lia. apply Z.mod_small. lia.
Qed.

Lemma pack_high j ch :
  0 ≤ ch < 256 → Z.shiftr (Z.lor (Z.shiftl j 8) ch) 8 = j.
Proof.
  intros Hch. rewrite pack_value by done.
  rewrite Z.shiftr_div_pow2 by lia. change (2 ^ 8) with 256.
  rewrite Z.add_comm, Z.div_add by lia.
  rewrite Z.div_small by lia. lia.
Qed.

Lemma pack_both_low r1 r2 :
  Z.land (Z.lor r1 r2) 0xff = Z.lor (Z.land r1 0xff) (Z.land r2 0xff).
Proof. apply Z.land_lor_distr_l. Qed.

Lemma low_byte_range r : 0 ≤ Z.land r 0xff < 256.
Proof.
  change 0xff with (Z.ones 8). rewrite Z.land_ones by lia.
  change (2 ^ 8) with 256. apply Z.mod_pos_bound. lia.
Qed.

(** The shift [i<<8] keeps the low 24 bits of [i]. *)
Lemma wrap32_shiftl i : wrap32 (Z.shiftl i 8) = Z.shiftl (packed_advance i) 8.
Proof.
  unfold wrap32, packed_advance. rewrite !Z.shiftl_mul_pow2 by lia.
  change (2 ^ 8) with 256.
  replace (i * 256 + 2147483648) with (256 * (i + 8388608)) by lia.
  change 4294967296 with (256 * 16777216).
  rewrite Z.mul_mod_distr_l by lia. lia.
Qed.

Lemma packed_advance_small i :
  -8388608 ≤ i < 8388608 → packed_advance i = i.
Proof.
  intros Hi. unfold packed_advance. rewrite Z.mod_small by lia. lia.
Qed.

Lemma packed_advance_range i : -8388608 ≤ packed_advance i < 8388608.
Proof.
  unfold packed_advance.
  pose proof (Z.mod_pos_bound (i + 8388608) 16777216). lia.
Qed.

(** Past 2^23 the packed advance count falls short of the counter by a
    multiple of 2^24. *)
Lemma packed_advance_short i :
  8388608 ≤ i → 16777216 ≤ i - packed_advance i.
Proof.
  intros Hi. unfold packed_advance.
  pose proof (Z.div_mod (i + 8388608) 16777216).
  assert (1 ≤ (i + 8388608) / 16777216)
    by (apply Z.div_le_lower_bound; lia).
  lia.
Qed.

(** ** The comparator *)

Section ComparatorFacts.
Context `{Platform}.

(** What one call of [getASCIIPropertyNameChar] finds: the advance
    count [j] and the character [ch] (0 at the end of the string). *)
Lemma skip_delimiters_spec name : ∀ i j c,
  skip_delimiters name i = (j, c) →
  i + 1 ≤ j ≤ i + delimiter_run name + 1 ∧
  ((code c = 0 ∧ significant name = []) ∨
   (code c ≠ 0 ∧ j - i ≤ Z.of_nat (length name) ∧
    significant name =
      code (uprv_asciitolower c) :: significant (drop (Z.to_nat (j - i)) name) ∧
    (fits_packing name = true →
     fits_packing (drop (Z.to_nat (j - i)) name) = true))).
Proof.
  induction name as [|a name IH]; intros i j c Hs; simpl in Hs.
  - inversion Hs; subst. simpl. split; [lia|]. left. done.
  - rewrite int_of_char_delimiter in Hs.
    cbn [significant length delimiter_run fits_packing].
    destruct (is_delimiter (code a)) eqn:Hd.
    + apply IH in Hs as [Hj Hs].
      assert (code a ≠ 0) as Ha
        by (intros E; rewrite E in Hd; discriminate).
      apply Z.eqb_neq in Ha. rewrite Ha.
      replace (Z.to_nat (j - i)) with (S (Z.to_nat (j - (i + 1)))) by lia.
      cbn [drop]. split; [lia|].
      destruct Hs as [Hs|(Hc & Hl & Hs & Hfit)]; [by left|right].
      split_and!; [done|lia|done|].
      intros [_ Hf]%andb_prop. by apply Hfit.
    + inversion Hs; subst. split; [lia|].
      destruct (Z.eqb_spec (code c) 0) as [E|E]; [by left|right].
      replace (i + 1 - i) with 1 by lia.
      split_and!; [done|lia|done|].
      by intros [_ Hf]%andb_prop.
Qed.

Lemma fits_packing_run name :
  fits_packing name = true → delimiter_run name < 8388607.
Proof.
  destruct name as [|c name]; simpl; [lia|].
  destruct (Z.eqb_spec (code c) 0) as [E|_].
  - rewrite E. simpl. lia.
  - intros [Hrun _]%andb_prop. by apply Z.ltb_lt in Hrun.
Qed.

Lemma getASCIIPropertyNameChar_spec name :
  fits_packing name = true →
  ∃ j ch,
    getASCIIPropertyNameChar name = Some (Z.lor (Z.shiftl j 8) ch) ∧
    1 ≤ j ∧
    ((ch = 0 ∧ significant name = []) ∨
     (0 < ch < 256 ∧ j ≤ Z.of_nat (length name) ∧
      significant name = ch :: significant (drop (Z.to_nat j) name) ∧
      fits_packing (drop (Z.to_nat j) name) = true)).
Proof.
  intros Hfit. unfold getASCIIPropertyNameChar.
  destruct (skip_delimiters name 0) as [j c] eqn:Hs.
  apply skip_delimiters_spec in Hs as [Hj Hs].
  pose proof (fits_packing_run _ Hfit) as Hrun.
  rewrite (int32_Some j) by (unfold int32_min, int32_max; lia).
  cbn [mbind option_bind].
  rewrite wrap32_shiftl, packed_advance_small by lia.
  rewrite int_of_char_is_zero.
  replace (j - 0) with j in Hs by lia.
  destruct Hs as [[Hc Hs]|(Hc & Hl & Hs & Hdrop)].
  - apply Z.eqb_eq in Hc as Hc'. rewrite Hc'. simpl.
    exists j, 0. rewrite Z.lor_0_r. split_and!; [done|lia|by left].
  - apply Z.eqb_neq in Hc as Hc'. rewrite Hc'. simpl.
    exists j, (code (uprv_asciitolower c)).
    split_and!; [done|lia|right].
    split_and!; [by apply asciitolower_nonzero..|done|done|by apply Hdrop].
Qed.

Lemma significant_positive s : Forall (λ ch, 0 < ch < 256) (significant s).
Proof.
  induction s as [|c s IH]; simpl; [constructor|].
  destruct (Z.eqb_spec (code c) 0); [constructor|].
  destruct (is_delimiter (code c)); [done|].
  constructor; [by apply asciitolower_nonzero|done].
Qed.

Lemma compare_loop_spec fuel : ∀ name1 name2,
  fits_packing name1 = true → fits_packing name2 = true →
  (length name1 < fuel)%nat →
  compare_loop fuel name1 name2 =
    Some (lex_compare (significant name1) (significant name2)).
Proof.
  induction fuel as [|fuel IH]; intros name1 name2 Hf1 Hf2 Hlen; [lia|].
  cbn [compare_loop].
  destruct (getASCIIPropertyNameChar_spec name1 Hf1)
    as (j1 & ch1 & -> & Hj1 & Hs1).
  destruct (getASCIIPropertyNameChar_spec name2 Hf2)
    as (j2 & ch2 & -> & Hj2 & Hs2).
  cbn [mbind option_bind].
  assert (0 ≤ ch1 < 256) as Hr1 by (destruct Hs1 as [[-> _]|[? _]]; lia).
  assert (0 ≤ ch2 < 256) as Hr2 by (destruct Hs2 as [[-> _]|[? _]]; lia).
  rewrite pack_both_low, !pack_low, !pack_high by done.
  destruct (Z.eqb_spec (Z.lor ch1 ch2) 0) as [E|E].
  - apply Z.lor_eq_0_iff in E as [-> ->].
    destruct Hs1 as [[_ ->]|[? _]]; [|lia].
    destruct Hs2 as [[_ ->]|[? _]]; [|lia]. done.
  - assert (¬ (ch1 = 0 ∧ ch2 = 0)) as Hnz
      by (intros [-> ->]; by apply E).
    destruct (Z.eq_dec ch1 ch2) as [<-|Hne].
    + (* equal significant characters: both strings advance *)
      assert (ch1 ≠ 0) as Hc by lia.
      destruct Hs1 as [[-> _]|(_ & Hl1 & -> & Hd1)]; [done|].
      destruct Hs2 as [[-> _]|(_ & Hl2 & -> & Hd2)]; [done|].
      replace (ch1 - ch1) with 0 by lia. rewrite andb_false_r.
      unfold advance.
      assert ((0 <=? j1) && (j1 <=? Z.of_nat (length name1)) = true) as ->
        by zbool.
      assert ((0 <=? j2) && (j2 <=? Z.of_nat (length name2)) = true) as ->
        by zbool.
      cbn [mbind option_bind lex_compare]. rewrite Z.eqb_refl.
      apply IH; [done..|]. rewrite length_drop. lia.
    + (* the first difference decides *)
      assert (Z.lor (Z.shiftl j1 8) ch1 ≠ Z.lor (Z.shiftl j2 8) ch2) as Hr.
      { intros Heq. apply Hne.
        rewrite <- (pack_low j1 ch1), <- (pack_low j2 ch2) by done.
        by rewrite Heq. }
      apply Z.eqb_neq in Hr as ->.
      assert (ch1 - ch2 ≠ 0) as Hd by lia.
      apply Z.eqb_neq in Hd as ->. simpl. f_equal.
      destruct Hs1 as [[-> ->]|(? & _ & -> & _)];
        destruct Hs2 as [[-> ->]|(? & _ & -> & _)]; simpl; try lia.
      apply Z.eqb_neq in Hne as ->. done.
Qed.

Lemma compare_spec a b :
  fits_packing a = true → fits_packing b = true →
  uprv_compareASCIIPropertyNames a b =
    Some (lex_compare (significant a) (significant b)).
Proof.
  intros. apply compare_loop_spec; [done..|lia].
Qed.

Lemma lex_compare_antisym x : ∀ y, lex_compare y x = - lex_compare x y.
Proof.
  induction x as [|a x IH]; intros [|b y]; simpl; try lia.
  rewrite (Z.eqb_sym b a). destruct (Z.eqb_spec a b); [apply IH|lia].
Qed.

Lemma lex_compare_zero x : ∀ y,
  Forall (λ ch, 0 < ch < 256) x → Forall (λ ch, 0 < ch < 256) y →
  lex_compare x y = 0 ↔ x = y.
Proof.
  induction x as [|a x IH]; intros [|b y] Hx Hy; simpl.
  - done.
  - inversion Hy; subst. split; [lia|done].
  - inversion Hx; subst. split; [lia|done].
  - inversion Hx; inversion Hy; subst.
    destruct (Z.eqb_spec a b) as [->|Hne].
    + rewrite IH by done. split; [by intros ->|by intros [= ->]].
    + split; [lia|]. intros [= -> _]. done.
Qed.

Lemma lex_compare_trans x : ∀ y z,
  Forall (λ ch, 0 < ch < 256) x → Forall (λ ch, 0 < ch < 256) y →
  Forall (λ ch, 0 < ch < 256) z →
  lex_compare x y ≤ 0 → lex_compare y z ≤ 0 → lex_compare x z ≤ 0.
Proof.
  induction x as [|a x IH]; intros [|b y] [|c z] Hx Hy Hz; simpl;
    rewrite ?Forall_cons in *; try lia.
  destruct Hx as [Ha Hx], Hy as [Hb Hy], Hz as [Hc Hz].
  destruct (Z.eqb_spec a b) as [Hab|Hab];
    destruct (Z.eqb_spec b c) as [Hbc|Hbc];
    destruct (Z.eqb_spec a c) as [Hac|Hac]; try lia.
  by apply IH.
Qed.
End ComparatorFacts.

Section ComparatorClaims.
Context `{Platform}.

Lemma skip_delimiters_run n : ∀ rest i,
  skip_delimiters (replicate n (char_of 0x2d) ++ rest) i =
  skip_delimiters rest (i + Z.of_nat n).
Proof.
  induction n as [|n IH]; intros rest i; simpl.
  - f_equal. lia.
  - rewrite int_of_char_delimiter.
    change (is_delimiter (code (char_of 45))) with true. cbv iota.
    rewrite IH. f_equal. lia.
Qed.

Lemma significant_run n : ∀ rest,
  significant (replicate n (char_of 0x2d) ++ rest) = significant rest.
Proof.
  induction n as [|n IH]; intros rest; [done|].
  cbn [replicate app significant].
  change (code (char_of 45) =? 0) with false.
  change (is_delimiter (code (char_of 45))) with true. cbv iota.
  apply IH.
Qed.

Lemma advance_negative name n : n < 0 → advance name n = None.
Proof.
  intros Hn. unfold advance.
  destruct (Z.leb_spec 0 n) as [Hle|_]; [lia|done].
Qed.

(** Behind a run of 8388607 hyphens the counter is 2^23, and [i<<8] is
    [INT32_MIN]. *)
Lemma getASCIIPropertyNameChar_long_a :
  getASCIIPropertyNameChar (long_delimiter_run ++ str "a") =
    Some (Z.lor int32_min 0x61).
Proof.
  unfold getASCIIPropertyNameChar, long_delimiter_run.
  rewrite skip_delimiters_run, Z2Nat.id by lia.
  destruct H as [[]]; reflexivity.
Qed.

Lemma getASCIIPropertyNameChar_long :
  getASCIIPropertyNameChar long_delimiter_run = Some int32_min.
Proof.
  unfold getASCIIPropertyNameChar, long_delimiter_run.
  rewrite <- (app_nil_r (replicate _ _)), skip_delimiters_run.
  rewrite Z2Nat.id by lia. destruct H as [[]]; reflexivity.
Qed.

(** A round of the comparator that finds the same character in both
    strings and then moves [name1] out of its string. *)
Lemma compare_advance_fails a b r1 r2 :
  getASCIIPropertyNameChar a = Some r1 →
  getASCIIPropertyNameChar b = Some r2 →
  Z.land (Z.lor r1 r2) 0xff ≠ 0 →
  Z.land r1 0xff = Z.land r2 0xff →
  advance a (Z.shiftr r1 8) = None →
  uprv_compareASCIIPropertyNames a b = None.
Proof.
  intros Ha Hb Hnz Heq Hadv. unfold uprv_compareASCIIPropertyNames.
  cbn [compare_loop]. rewrite Ha, Hb. cbn [mbind option_bind].
  apply Z.eqb_neq in Hnz as ->. rewrite Heq, Z.sub_diag.
  rewrite andb_false_r, Hadv. done.
Qed.

(** A round of the comparator that finds both strings at their end. *)
Lemma compare_both_ended a b r1 r2 :
  getASCIIPropertyNameChar a = Some r1 →
  getASCIIPropertyNameChar b = Some r2 →
  Z.land (Z.lor r1 r2) 0xff = 0 →
  uprv_compareASCIIPropertyNames a b = Some 0.
Proof.
  intros Ha Hb Hz. unfold uprv_compareASCIIPropertyNames.
  cbn [compare_loop]. rewrite Ha, Hb. cbn [mbind option_bind].
  by rewrite Hz.
Qed.

(** C7.  The comparator does not ignore every run of hyphens: on
    8388607 hyphens followed by "a", compared with "a", the two streams
    of lowercased significant characters are both "a", so that the
    three-way comparison of the streams is 0; but the counter of
    [getASCIIPropertyNameChar] is 2^23 behind the run, [i<<8] is
    [INT32_MIN], the advance count [r1>>8] is -8388608, and
    [name1+=r1>>8] leaves the string: the comparator has no defined
    result.  (At the end of a string the lost advance count does no
    harm: the run alone still compares equal to the empty string.) *)
Theorem compare_packing_overflow :
  lex_compare (significant (long_delimiter_run ++ str "a"))
              (significant (str "a")) = 0 ∧
  getASCIIPropertyNameChar (long_delimiter_run ++ str "a") =
    Some (Z.lor int32_min 0x61) ∧
  Z.shiftr (Z.lor int32_min 0x61) 8 = -8388608 ∧
  advance (long_delimiter_run ++ str "a") (-8388608) = None ∧
  uprv_compareASCIIPropertyNames (long_delimiter_run ++ str "a") (str "a")
    = None ∧
  uprv_compareASCIIPropertyNames long_delimiter_run [] = Some 0.
Proof.
  assert (getASCIIPropertyNameChar (str "a") = Some 0x161) as Hb
    by (destruct H as [[]]; reflexivity).
  assert (getASCIIPropertyNameChar [] = Some 0x100) as He
    by (destruct H as [[]]; reflexivity).
  pose proof getASCIIPropertyNameChar_long_a as Ha.
  pose proof getASCIIPropertyNameChar_long as Hl.
  assert (advance (long_delimiter_run ++ str "a") (-8388608) = None) as Hadv
    by (apply advance_negative; lia).
  split_and!.
  - unfold long_delimiter_run. rewrite significant_run.
    destruct H as [[]]; reflexivity.
  - exact Ha.
  - reflexivity.
  - exact Hadv.
  - apply (compare_advance_fails _ _ _ _ Ha Hb); [discriminate|reflexivity|].
    exact Hadv.
  - apply (compare_both_ended _ _ _ _ Hl He). reflexivity.
Qed.
End ComparatorClaims.

(** ** AliasAutomatonAdapter *)

Section Adapter.
Context `{Platform}.
Context {T : Type} `{ByteTrie T}.

(** [containsName] feeds the automaton the stream of lowercased
    significant characters, the one the comparator compares. *)
Lemma containsName_loop_feed name : ∀ trie : T,
  PropNameData.containsName_loop trie name = feed trie (significant name).
Proof.
  induction name as [|c name IH]; intros trie; simpl; [done|].
  rewrite int_of_char_is_zero.
  destruct (code c =? 0); [done|].
  unfold uprv_invCharToLowercaseAscii.
  rewrite int_of_char_delimiter, asciitolower_delimiter.
  destruct (is_delimiter (code c)); [apply IH|].
  simpl. destruct (next trie _) as [[] trie']; simpl; [apply IH|done].
Qed.

Lemma flip_case_significant c s1 s2 :
  significant s1 = significant s2 →
  significant (flip_case c :: s1) = significant (c :: s2).
Proof.
  intros Hs. cbn [significant].
  by rewrite Hs, flip_case_is_zero, flip_case_delimiter,
    flip_case_asciitolower.
Qed.

Lemma loose_variant_significant a b :
  loose_variant a b → significant a = significant b.
Proof.
  induction 1 as [|c a b _ IH|c a b _ IH|c a b Hc _ IH].
  - done.
  - simpl. by rewrite IH.
  - symmetry. by apply flip_case_significant.
  - cbn [significant]. rewrite Hc.
    destruct (Z.eqb_spec (code c) 0) as [E|_]; [|done].
    rewrite E in Hc. discriminate.
Qed.

Lemma all_delimiters_significant s :
  all_delimiters s → significant s = [].
Proof.
  induction 1 as [|c s Hc _ IH]; [done|].
  cbn [significant]. rewrite Hc.
  destruct (Z.eqb_spec (code c) 0) as [E|_]; [|done].
  rewrite E in Hc. discriminate.
Qed.

(** C2.  Reverse lookup does not tell loose variants of an alias apart:
    for every non-null alias [a] and every [b] that is [a] with the case
    of any characters flipped, with '-', '_' or space characters put in
    between its characters, or with leading or trailing ASCII
    whitespace added, [getPropertyEnum] gives the same result on both,
    and so does [getPropertyValueEnum] for any table and any fixed
    property. *)
Theorem reverse_lookup_loose_invariant (a b : list ascii) :
  loose_variant a b →
  PropNameData.getPropertyEnum (T:=T) (Some a) =
    PropNameData.getPropertyEnum (Some b) ∧
  ∀ valueMaps property,
    PropNameData.getPropertyValueEnum (T:=T) valueMaps property (Some a) =
      PropNameData.getPropertyValueEnum valueMaps property (Some b).
Proof.
  intros Hv%loose_variant_significant.
  assert (∀ off, PropNameData.getPropertyOrValueEnum (T:=T) off (Some a) =
                 PropNameData.getPropertyOrValueEnum off (Some b)) as Heq.
  { intros off. unfold PropNameData.getPropertyOrValueEnum. simpl.
    by rewrite !containsName_loop_feed, Hv. }
  split; [apply Heq|].
  intros valueMaps property. unfold PropNameData.getPropertyValueEnum.
  destruct (PropNameData.findProperty _ _) as [i|]; [simpl|done].
  destruct (i =? 0); [done|].
  destruct (int32 _) as [i1|]; [simpl|done].
  destruct (PropNameData.word _ i1) as [vmi|]; [simpl|done].
  destruct (vmi =? 0); [done|].
  destruct (PropNameData.word _ vmi) as [off|]; [simpl|done].
  by rewrite Heq.
Qed.

(** C8.  A non-null alias made only of ignorable characters ('-', '_',
    0x20, 0x09..0x0d), the empty string included, feeds no byte to the
    automaton: [containsName] is [contains] at the initial position, so
    the lookup yields the automaton's value there when that position is
    a terminal, and the invalid sentinel only when it is not. *)
Theorem empty_alias_asks_initial_position
    (alias : list ascii) (trie : T) (offset : Z) :
  all_delimiters alias →
  significant alias = [] ∧
  PropNameData.containsName trie (Some alias) = contains trie ∧
  PropNameData.getPropertyOrValueEnum (T:=T) offset (Some alias) =
    (if (contains (trie_at offset)).1
     then getValue (contains (trie_at offset)).2
     else UCHAR_INVALID_CODE) ∧
  PropNameData.getPropertyEnum (T:=T) (Some []) =
    (if (contains (trie_at 0)).1
     then getValue (contains (trie_at 0)).2
     else UCHAR_INVALID_CODE).
Proof.
  intros Hs%all_delimiters_significant.
  unfold PropNameData.getPropertyEnum, PropNameData.getPropertyOrValueEnum.
  simpl. rewrite !containsName_loop_feed, Hs. simpl.
  split_and!; try done.
  - by destruct (contains (trie_at offset)).
  - by destruct (contains (trie_at 0)).
Qed.
End Adapter.

(** ** PropertyRangeIndex *)

Lemma word_Some valueMaps i w :
  0 ≤ i ≤ int32_max → valueMaps !! Z.to_nat i = Some w → is_int32 w = true →
  PropNameData.word valueMaps i = Some w.
Proof.
  intros Hi Hl Hw. unfold PropNameData.word.
  rewrite int32_Some by (unfold int32_min; lia). simpl.
  destruct (Z.ltb_spec i 0); [lia|].
  rewrite Hl. simpl. unfold int32. by rewrite Hw.
Qed.

Lemma word_inv valueMaps i w :
  PropNameData.word valueMaps i = Some w →
  0 ≤ i ≤ int32_max ∧ valueMaps !! Z.to_nat i = Some w ∧
  int32_min ≤ w ≤ int32_max.
Proof.
  unfold PropNameData.word. intros Hw.
  apply bind_Some in Hw as (i' & [-> Hi]%int32_inv & Hw).
  destruct (Z.ltb_spec i 0); [done|].
  apply bind_Some in Hw as (w' & Hl & [-> Hw]%int32_inv).
  split_and!; try done; lia.
Qed.

Lemma lookup_middle {A} (front block tail : list A) k w :
  block !! k = Some w →
  (front ++ block ++ tail) !! (length front + k)%nat = Some w.
Proof.
  intros Hk. rewrite lookup_app_r by lia.
  replace (length front + k - length front)%nat with k by lia.
  by apply lookup_app_l_Some.
Qed.

Lemma word_middle front block tail k w :
  block !! k = Some w → is_int32 w = true →
  Z.of_nat (length front + k) ≤ int32_max →
  PropNameData.word (front ++ block ++ tail) (Z.of_nat (length front + k))
    = Some w.
Proof.
  intros Hk Hw Hi. apply word_Some; [lia| |done].
  rewrite Nat2Z.id. by apply lookup_middle.
Qed.

Lemma length_encode_records recs :
  length (encode_records recs) = (2 * length recs)%nat.
Proof.
  unfold encode_records. induction recs as [|rec recs IH]; simpl; lia.
Qed.

Lemma length_encode_range r :
  length (encode_range r) = (2 + 2 * length (pr_records r))%nat.
Proof. unfold encode_range. simpl. rewrite length_encode_records. lia. Qed.

Lemma forallb_app_inv {A} (f : A → bool) l1 l2 :
  forallb f (l1 ++ l2) = true → forallb f l1 = true ∧ forallb f l2 = true.
Proof. rewrite forallb_app. by intros [? ?]%andb_prop. Qed.

(** One iteration of the scan of [findProperty], once its two reads are
    known. *)
Lemma findProperty_loop_step valueMaps n i property start end_ :
  PropNameData.word valueMaps i = Some start →
  PropNameData.word valueMaps (i + 1) = Some end_ →
  i + 2 ≤ int32_max →
  PropNameData.findProperty_loop valueMaps (S n) i property =
    if property <? start then Some 0
    else if property <=? end_ then
      d ← int32 (property - start); d2 ← int32 (d * 2); int32 (i + 2 + d2)
    else
      k ← int32 (end_ - start); k1 ← int32 (k + 1); k2 ← int32 (k1 * 2);
      j ← int32 (i + 2 + k2);
      PropNameData.findProperty_loop valueMaps n j property.
Proof.
  intros Hs He Hmax. cbn [PropNameData.findProperty_loop].
  pose proof (word_inv _ _ _ Hs) as [Hi _].
  rewrite Hs. cbn [mbind option_bind].
  rewrite (int32_Some (i + 1)) by (unfold int32_min; lia).
  cbn [mbind option_bind]. rewrite He. cbn [mbind option_bind].
  rewrite (int32_Some (i + 2)) by (unfold int32_min; lia).
  done.
Qed.

Section RangeScan.
Variable property : Z.
Variable tail : list Z.

(** One iteration over a range that ends below the property code. *)
Lemma findProperty_loop_skip front r rest n :
  range_ok r = true → pr_end r < property →
  forallb is_int32 (encode_range r) = true →
  Z.of_nat (length front + length (encode_range r)) ≤ int32_max →
  PropNameData.findProperty_loop (front ++ encode_range r ++ rest)
    (S n) (Z.of_nat (length front)) property =
  PropNameData.findProperty_loop (front ++ encode_range r ++ rest)
    n (Z.of_nat (length front + length (encode_range r))) property.
Proof.
  intros [Hse Hlen]%andb_prop Hend Hw Hmax.
  apply Z.leb_le in Hse. apply Z.eqb_eq in Hlen.
  rewrite length_encode_range in *.
  simpl in Hw. apply andb_prop in Hw as [Hw1 Hw].
  apply andb_prop in Hw as [Hw2 _].
  assert (Z.of_nat (length front + 1) ≤ int32_max) as Hmax1 by lia.
  pose proof (word_middle front (encode_range r) rest 0 (pr_start r)
                eq_refl Hw1) as H0.
  pose proof (word_middle front (encode_range r) rest 1 (pr_end r)
                eq_refl Hw2 Hmax1) as H1.
  rewrite Nat.add_0_r in H0. rewrite Nat2Z.inj_add in H1.
  rewrite (findProperty_loop_step _ _ _ _ _ _ (H0 ltac:(lia)) H1)
    by lia.
  destruct (Z.ltb_spec property (pr_start r)); [lia|].
  destruct (Z.leb_spec property (pr_end r)); [lia|].
  unfold is_int32, int32_min, int32_max in *.
  rewrite (int32_Some (pr_end r - pr_start r))
    by (unfold int32_min, int32_max; lia).
  cbn [mbind option_bind].
  rewrite (int32_Some (pr_end r - pr_start r + 1))
    by (unfold int32_min, int32_max; lia).
  cbn [mbind option_bind].
  rewrite (int32_Some ((pr_end r - pr_start r + 1) * 2))
    by (unfold int32_min, int32_max; lia).
  cbn [mbind option_bind].
  rewrite int32_Some by (unfold int32_min, int32_max; lia).
  cbn [mbind option_bind].
  f_equal. lia.
Qed.

(** The scan walks over every range that ends below the property
    code, reading nothing but the two header words of each. *)
Lemma findProperty_loop_skips pre : ∀ front n,
  Forall (λ r, range_ok r = true ∧ pr_end r < property) pre →
  forallb is_int32 (flat_map encode_range pre) = true →
  Z.of_nat (length front + length (flat_map encode_range pre)) ≤ int32_max →
  PropNameData.findProperty_loop (front ++ flat_map encode_range pre ++ tail)
    (length pre + n) (Z.of_nat (length front)) property =
  PropNameData.findProperty_loop (front ++ flat_map encode_range pre ++ tail)
    n (Z.of_nat (length front + length (flat_map encode_range pre)))
    property.
Proof.
  induction pre as [|r pre IH]; intros front n Hpre Hw Hmax.
  - simpl. do 2 f_equal. lia.
  - apply Forall_cons in Hpre as [[Hok Hend] Hpre].
    cbn [flat_map] in *. rewrite length_app in Hmax.
    apply forallb_app_inv in Hw as [Hw1 Hw2].
    cbn [length Nat.add]. rewrite <- (app_assoc (encode_range r)).
    rewrite findProperty_loop_skip by (try done; lia).
    rewrite (app_assoc front (encode_range r)).
    rewrite <- length_app.
    rewrite IH by (try done; rewrite length_app; lia).
    do 2 f_equal. rewrite !length_app. lia.
Qed.
End RangeScan.

Lemma forallb_Forall {A} (f : A → bool) l :
  forallb f l = true ↔ Forall (λ x, f x = true) l.
Proof.
  induction l as [|x l IH]; simpl; [by split; [constructor|]|].
  rewrite andb_true_iff, Forall_cons, IH. done.
Qed.

Lemma ascending_tail r rs : ascending (r :: rs) = true → ascending rs = true.
Proof. destruct rs as [|q rs]; [done|]. simpl. by intros [_ ?]%andb_prop. Qed.

(** In an ascending table every later range starts after an earlier one
    ends. *)
Lemma ascending_after rs : ∀ r,
  Forall (λ q, range_ok q = true) rs → ascending (r :: rs) = true →
  Forall (λ q, pr_end r < pr_start q) rs.
Proof.
  induction rs as [|q rs IH]; intros r Hok Hasc; [constructor|].
  apply Forall_cons in Hok as [Hq Hok].
  cbn [ascending] in Hasc. apply andb_prop in Hasc as [Hrq Hasc].
  apply Z.ltb_lt in Hrq.
  constructor; [done|].
  apply andb_prop in Hq as [Hq%Z.leb_le _].
  eapply Forall_impl; [by apply IH|]. simpl. lia.
Qed.

Lemma ascending_before_last rs : ∀ r,
  Forall (λ q, range_ok q = true) (rs ++ [r]) →
  ascending (rs ++ [r]) = true →
  Forall (λ q, pr_end q ≤ pr_end r) (rs ++ [r]).
Proof.
  induction rs as [|q rs IH]; intros r Hok Hasc.
  - constructor; [lia|constructor].
  - rewrite <- app_comm_cons in *.
    apply Forall_cons in Hok as [Hq Hok].
    pose proof (ascending_after _ _ Hok Hasc) as Hafter.
    apply Forall_app in Hafter as [_ [Hr _]%Forall_cons].
    apply Forall_app in Hok as Hok'. destruct Hok' as [_ [Hrok _]%Forall_cons].
    apply andb_prop in Hrok as [Hrok%Z.leb_le _].
    constructor; [lia|].
    apply IH; [done|by eapply ascending_tail].
Qed.

Section RangeScanStop.
Variable property : Z.

(** One iteration at a range that starts above the property code: the
    scan reads the two header words and gives up. *)
Lemma findProperty_loop_stop front start end_ rest n :
  property < start → is_int32 start = true → is_int32 end_ = true →
  Z.of_nat (length front) + 2 ≤ int32_max →
  PropNameData.findProperty_loop (front ++ [start; end_] ++ rest)
    (S n) (Z.of_nat (length front)) property = Some 0.
Proof.
  intros Hp Hs He Hmax.
  assert (Z.of_nat (length front + 1) ≤ int32_max) as Hmax1 by lia.
  assert (Z.of_nat (length front + 0) ≤ int32_max) as Hmax0 by lia.
  pose proof (word_middle front [start; end_] rest 0 start
                eq_refl Hs Hmax0) as H0.
  pose proof (word_middle front [start; end_] rest 1 end_
                eq_refl He Hmax1) as H1.
  rewrite Nat.add_0_r in H0. rewrite Nat2Z.inj_add in H1.
  rewrite (findProperty_loop_step _ _ _ _ _ _ H0 H1) by lia.
  destruct (Z.ltb_spec property start); [done|lia].
Qed.
End RangeScanStop.

Lemma findProperty_unfold numRanges words property :
  is_int32 (Z.of_nat numRanges) = true →
  PropNameData.findProperty (Z.of_nat numRanges :: words) property =
  PropNameData.findProperty_loop (Z.of_nat numRanges :: words)
    numRanges 1 property.
Proof.
  intros Hn. unfold PropNameData.findProperty.
  rewrite (word_Some _ 0 (Z.of_nat numRanges)) by (done || unfold int32_max; lia).
  simpl. by rewrite Nat2Z.id.
Qed.

(** The two scan lemmas, for a table, a count and an index given up to
    equality. *)
Lemma findProperty_loop_skips_eq property tail pre front n valueMaps fuel i :
  valueMaps = front ++ flat_map encode_range pre ++ tail →
  fuel = (length pre + n)%nat → i = Z.of_nat (length front) →
  Forall (λ r, range_ok r = true ∧ pr_end r < property) pre →
  forallb is_int32 (flat_map encode_range pre) = true →
  Z.of_nat (length front + length (flat_map encode_range pre)) ≤ int32_max →
  PropNameData.findProperty_loop valueMaps fuel i property =
  PropNameData.findProperty_loop valueMaps
    n (Z.of_nat (length front + length (flat_map encode_range pre))) property.
Proof. intros -> -> ->. apply findProperty_loop_skips. Qed.

Lemma findProperty_loop_stop_eq property front start end_ rest n valueMaps i :
  valueMaps = front ++ [start; end_] ++ rest → i = Z.of_nat (length front) →
  property < start → is_int32 start = true → is_int32 end_ = true →
  Z.of_nat (length front) + 2 ≤ int32_max →
  PropNameData.findProperty_loop valueMaps (S n) i property = Some 0.
Proof. intros -> ->. apply findProperty_loop_stop. Qed.

(** C5.  On a well-formed property range table (ascending, disjoint
    ranges) [findProperty] returns the not-found sentinel 0 for a property
    code below the first range's start and for one above the last range's
    end, whatever follows the table ([rest], which may be empty: no word
    beyond the last range's record block is needed); and the scan stops at
    the first range whose start exceeds the property code: the result is
    0 already on the table cut off behind that range's two header
    words. *)
Theorem findProperty_outside_ranges
    (rs : list prop_range) (rest : list Z) (property : Z) :
  well_formed_ranges rs = true →
  (∀ r rs', rs = r :: rs' → property < pr_start r →
     PropNameData.findProperty (encode_ranges rs ++ rest) property = Some 0) ∧
  (∀ rs' r, rs = rs' ++ [r] → pr_end r < property →
     PropNameData.findProperty (encode_ranges rs ++ rest) property = Some 0) ∧
  (∀ pre r post, rs = pre ++ r :: post →
     Forall (λ q, pr_end q < property) pre → property < pr_start r →
     PropNameData.findProperty
       (Z.of_nat (length rs) :: flat_map encode_range pre ++
          [pr_start r; pr_end r] ++ rest) property = Some 0).
Proof.
  unfold well_formed_ranges. intros Hwf.
  apply andb_prop in Hwf as [Hwf Hmax%Z.leb_le].
  apply andb_prop in Hwf as [Hwf Hw].
  apply andb_prop in Hwf as [Hok%forallb_Forall Hasc].
  unfold encode_ranges in *. cbn [forallb length] in Hw, Hmax.
  apply andb_prop in Hw as [Hn Hw].
  assert (∀ pre r post tail, rs = pre ++ r :: post →
     Forall (λ q, pr_end q < property) pre → property < pr_start r →
     PropNameData.findProperty
       (Z.of_nat (length rs) :: flat_map encode_range pre ++
          [pr_start r; pr_end r] ++ tail) property = Some 0) as Hstop.
  { intros pre r post tail -> Hpre Hp.
    rewrite findProperty_unfold by done.
    rewrite flat_map_app, length_app in Hmax. rewrite flat_map_app in Hw.
    cbn [flat_map] in Hw, Hmax.
    apply forallb_app_inv in Hw as [Hw1 Hw2].
    apply forallb_app_inv in Hw2 as [Hw2 _].
    rewrite length_app, length_encode_range in Hmax.
    apply andb_prop in Hw2 as [Hs Hw2]. apply andb_prop in Hw2 as [He _].
    apply Forall_app in Hok as [Hok _].
    rewrite (findProperty_loop_skips_eq property
               ([pr_start r; pr_end r] ++ tail) pre
               [Z.of_nat (length (pre ++ r :: post))] (S (length post)));
      cycle 1.
    { done. }
    { rewrite length_app. done. }
    { done. }
    { apply Forall_forall. intros q Hq.
      rewrite Forall_forall in Hok, Hpre. split; [by apply Hok|by apply Hpre]. }
    { done. }
    { simpl. lia. }
    apply (findProperty_loop_stop_eq property
             ([Z.of_nat (length (pre ++ r :: post))] ++
                flat_map encode_range pre)
             (pr_start r) (pr_end r) tail); try done.
    all: rewrite ?length_app; simpl; lia. }
  split_and!.
  - intros r rs' -> Hp.
    specialize (Hstop [] r rs' (encode_records (pr_records r) ++
                  flat_map encode_range rs' ++ rest) eq_refl).
    simpl in Hstop. simpl. rewrite <- app_assoc. apply Hstop; [constructor|done].
  - intros rs' r -> Hp.
    rewrite <- app_comm_cons. rewrite findProperty_unfold by done.
    pose proof (ascending_before_last _ _ Hok Hasc) as Hlast.
    rewrite (findProperty_loop_skips_eq property rest (rs' ++ [r])
               [Z.of_nat (length (rs' ++ [r]))] 0); cycle 1.
    { done. }
    { lia. }
    { done. }
    { apply Forall_forall. intros q Hq.
      rewrite Forall_forall in Hok, Hlast.
      split; [by apply Hok|]. specialize (Hlast q Hq). lia. }
    { done. }
    { simpl. lia. }
    done.
  - intros pre r post. apply Hstop.
Qed.

(** ** The index [findProperty] returns *)

Lemma findProperty_loop_odd valueMaps property n : ∀ i idx,
  PropNameData.findProperty_loop valueMaps n i property = Some idx →
  idx ≠ 0 → Z.odd i = true → 3 ≤ idx.
Proof.
  induction n as [|n IH]; intros i idx Hloop Hidx Hodd; simpl in Hloop.
  - by inversion Hloop.
  - apply bind_Some in Hloop as (start & [Hi _]%word_inv & Hloop).
    apply bind_Some in Hloop as (i1 & [-> _]%int32_inv & Hloop).
    apply bind_Some in Hloop as (end_ & _ & Hloop).
    apply bind_Some in Hloop as (i2 & [-> _]%int32_inv & Hloop).
    assert (1 ≤ i).
    { destruct (Z.eq_dec i 0) as [->|]; [done|lia]. }
    destruct (Z.ltb_spec property start); [by inversion Hloop|].
    destruct (Z.leb_spec property end_).
    + apply bind_Some in Hloop as (d & [-> _]%int32_inv & Hloop).
      apply bind_Some in Hloop as (d2 & [-> _]%int32_inv & Hloop).
      apply int32_inv in Hloop as [-> _]. lia.
    + apply bind_Some in Hloop as (k & [-> _]%int32_inv & Hloop).
      apply bind_Some in Hloop as (k1 & [-> _]%int32_inv & Hloop).
      apply bind_Some in Hloop as (k2 & [-> _]%int32_inv & Hloop).
      apply bind_Some in Hloop as (i3 & [-> _]%int32_inv & Hloop).
      apply (IH _ _ Hloop Hidx).
      rewrite (Z.mul_comm _ 2), Z.odd_add_mul_2.
      replace (i + 2) with (i + 2 * 1) by lia.
      by rewrite Z.odd_add_mul_2.
Qed.

(** C10.  Whatever the property range table and the property code, a
    nonzero result of [findProperty] is at least 3 (the [numRanges] word
    and a two-word range header lie before every record), so the
    "unknown property" sentinel 0 never coincides with a hit. *)
Theorem findProperty_hit_at_least_3 (valueMaps : list Z) (property idx : Z) :
  PropNameData.findProperty valueMaps property = Some idx →
  idx ≠ 0 → 3 ≤ idx.
Proof.
  unfold PropNameData.findProperty. intros Hf Hidx.
  apply bind_Some in Hf as (numRanges & _ & Hloop).
  by apply (findProperty_loop_odd _ _ _ _ _ Hloop Hidx).
Qed.

(** ** The record [findProperty] finds *)

Lemma find_all_false {A} (f : A → bool) l :
  Forall (λ x, f x = false) l → List.find f l = None.
Proof.
  induction 1 as [|x l Hx _ IH]; simpl; [done|]. by rewrite Hx.
Qed.

Lemma forallb_lookup {A} (f : A → bool) (l : list A) k x :
  forallb f l = true → l !! k = Some x → f x = true.
Proof.
  rewrite forallb_Forall, Forall_lookup. intros Hl Hk. by apply (Hl k).
Qed.

Lemma encode_records_lookup recs : ∀ k g v,
  recs !! k = Some (g, v) →
  encode_records recs !! (2 * k)%nat = Some g ∧
  encode_records recs !! (2 * k + 1)%nat = Some v.
Proof.
  induction recs as [|rec recs IH]; intros k g v Hk; [done|].
  destruct k as [|k]; simpl in Hk.
  - inversion Hk; subst. done.
  - apply IH in Hk as [Hg Hv].
    replace (2 * S k)%nat with (S (S (2 * k))) by lia.
    replace (S (S (2 * k)) + 1)%nat with (S (S (2 * k + 1))) by lia.
    done.
Qed.

Lemma record_of_head_skip r rs property :
  covers r property = false →
  record_of (r :: rs) property = record_of rs property.
Proof. intros Hc. unfold record_of. simpl. by rewrite Hc. Qed.

Section RangeScanRecord.
Variable property : Z.
Variable tail : list Z.

(** One iteration at the range that covers the property code. *)
Lemma findProperty_loop_hit front r rest n g v :
  range_ok r = true → covers r property = true →
  pr_records r !! Z.to_nat (property - pr_start r) = Some (g, v) →
  forallb is_int32 (encode_range r) = true →
  Z.of_nat (length front + length (encode_range r)) ≤ int32_max →
  let valueMaps := front ++ encode_range r ++ rest in
  let idx := Z.of_nat (length front) + 2 + (property - pr_start r) * 2 in
  PropNameData.findProperty_loop valueMaps
    (S n) (Z.of_nat (length front)) property = Some idx ∧
  PropNameData.word valueMaps idx = Some g ∧
  PropNameData.word valueMaps (idx + 1) = Some v ∧
  idx + 1 ≤ int32_max.
Proof.
  intros [Hse Hlen]%andb_prop [Hps Hpe]%andb_prop Hrec Hw Hmax
    valueMaps idx.
  apply Z.leb_le in Hse, Hps, Hpe. apply Z.eqb_eq in Hlen.
  pose proof (lookup_lt_Some _ _ _ Hrec) as Hk.
  pose proof (encode_records_lookup _ _ _ _ Hrec) as [Hg Hv].
  assert (encode_range r !! (2 + 2 * Z.to_nat (property - pr_start r))%nat
            = Some g) as Hg' by done.
  assert (encode_range r !! (2 + (2 * Z.to_nat (property - pr_start r) + 1))%nat
            = Some v) as Hv' by done.
  pose proof (forallb_lookup _ _ _ _ Hw Hg') as Hgi.
  pose proof (forallb_lookup _ _ _ _ Hw Hv') as Hvi.
  rewrite length_encode_range in Hmax.
  simpl in Hw. apply andb_prop in Hw as [Hw1 Hw].
  apply andb_prop in Hw as [Hw2 _].
  assert (Z.of_nat (length front + 1) ≤ int32_max) as Hmax1 by lia.
  assert (Z.of_nat (length front + 0) ≤ int32_max) as Hmax0 by lia.
  pose proof (word_middle front (encode_range r) rest 0 (pr_start r)
                eq_refl Hw1 Hmax0) as H0.
  pose proof (word_middle front (encode_range r) rest 1 (pr_end r)
                eq_refl Hw2 Hmax1) as H1.
  rewrite Nat.add_0_r in H0. rewrite Nat2Z.inj_add in H1.
  assert (idx = Z.of_nat (length front +
                  (2 + 2 * Z.to_nat (property - pr_start r)))) as Hidx
    by (unfold idx; lia).
  assert (idx + 1 = Z.of_nat (length front +
                  (2 + (2 * Z.to_nat (property - pr_start r) + 1)))) as Hidx1
    by (unfold idx; lia).
  split_and!.
  - rewrite (findProperty_loop_step _ _ _ _ _ _ H0 H1) by lia.
    destruct (Z.ltb_spec property (pr_start r)); [lia|].
    destruct (Z.leb_spec property (pr_end r)); [|lia].
    unfold is_int32, int32_min, int32_max in *.
    rewrite (int32_Some (property - pr_start r))
      by (unfold int32_min, int32_max; lia).
    cbn [mbind option_bind].
    rewrite (int32_Some ((property - pr_start r) * 2))
      by (unfold int32_min, int32_max; lia).
    cbn [mbind option_bind].
    apply int32_Some. unfold int32_min, int32_max. lia.
  - rewrite Hidx. apply word_middle; [done..|lia].
  - rewrite Hidx1. apply word_middle; [done..|lia].
  - lia.
Qed.

(** The scan over a well-formed run of ranges finds the record of the
    property code, or 0 when no range covers it. *)
Lemma findProperty_loop_record rs : ∀ front,
  Forall (λ r, range_ok r = true) rs → ascending rs = true →
  forallb is_int32 (flat_map encode_range rs) = true →
  Z.of_nat (length front + length (flat_map encode_range rs)) ≤ int32_max →
  1 ≤ Z.of_nat (length front) →
  let valueMaps := front ++ flat_map encode_range rs ++ tail in
  match record_of rs property with
  | None =>
      PropNameData.findProperty_loop valueMaps
        (length rs) (Z.of_nat (length front)) property = Some 0
  | Some (g, v) =>
      ∃ idx,
        PropNameData.findProperty_loop valueMaps
          (length rs) (Z.of_nat (length front)) property = Some idx ∧
        idx ≠ 0 ∧ idx + 1 ≤ int32_max ∧
        PropNameData.word valueMaps idx = Some g ∧
        PropNameData.word valueMaps (idx + 1) = Some v
  end.
Proof.
  induction rs as [|r rs IH]; intros front Hok Hasc Hw Hmax Hfront; [done|].
  apply Forall_cons in Hok as [Hr Hok].
  cbn [flat_map] in *. rewrite length_app in Hmax.
  apply forallb_app_inv in Hw as [Hw1 Hw2].
  rewrite <- (app_assoc (encode_range r)).
  destruct (covers r property) eqn:Hc.
  - (* the range covers the property code *)
    unfold record_of. cbn [List.find]. rewrite Hc. cbn [mbind option_bind].
    apply andb_prop in Hr as Hr'. destruct Hr' as [_ Hlen%Z.eqb_eq].
    apply andb_prop in Hc as Hc'. destruct Hc' as [Hps%Z.leb_le Hpe%Z.leb_le].
    destruct (pr_records r !! Z.to_nat (property - pr_start r))
      as [[g v]|] eqn:Hrec.
    + destruct (findProperty_loop_hit front r
                  (flat_map encode_range rs ++ tail) (length rs) g v
                  Hr Hc Hrec Hw1 ltac:(lia)) as (Hloop & Hg & Hv & Hi).
      eexists. split_and!; [exact Hloop|lia|done..].
    + apply lookup_ge_None in Hrec. lia.
  - (* the range does not cover it *)
    rewrite (record_of_head_skip _ _ _ Hc).
    apply andb_prop in Hr as Hr'. destruct Hr' as [Hse%Z.leb_le Hlen%Z.eqb_eq].
    destruct (Z.ltb_spec property (pr_start r)) as [Hlt|Hge].
    + (* below the range: nothing later covers it either *)
      assert (record_of rs property = None) as ->.
      { unfold record_of. rewrite find_all_false; [done|].
        eapply Forall_impl; [by apply (ascending_after rs r)|].
        intros q Hq. simpl in Hq. unfold covers.
        destruct (Z.leb_spec (pr_start q) property); [lia|done]. }
      simpl in Hw1. apply andb_prop in Hw1 as [Hs Hw1].
      apply andb_prop in Hw1 as [He _].
      rewrite length_encode_range in Hmax.
      apply (findProperty_loop_stop_eq property front
               (pr_start r) (pr_end r)
               (encode_records (pr_records r) ++
                  flat_map encode_range rs ++ tail)); try done.
      lia.
    + (* above the range: the scan moves on *)
      assert (pr_end r < property) as Hgt.
      { unfold covers in Hc.
        destruct (Z.leb_spec (pr_start r) property); [|lia].
        destruct (Z.leb_spec property (pr_end r)); [done|lia]. }
      cbn [length].
      rewrite findProperty_loop_skip by (try done; lia).
      specialize (IH (front ++ encode_range r) Hok (ascending_tail _ _ Hasc)
                    Hw2).
      rewrite length_app in IH. rewrite <- !app_assoc in IH.
      apply IH; lia.
Qed.
End RangeScanRecord.

(** [findProperty] on a well-formed table: 0 for a property code no range
    covers, and otherwise the index of its record. *)
Lemma findProperty_record rs rest property :
  well_formed_ranges rs = true →
  let valueMaps := encode_ranges rs ++ rest in
  match record_of rs property with
  | None => PropNameData.findProperty valueMaps property = Some 0
  | Some (g, v) =>
      ∃ idx,
        PropNameData.findProperty valueMaps property = Some idx ∧
        idx ≠ 0 ∧ idx + 1 ≤ int32_max ∧
        PropNameData.word valueMaps idx = Some g ∧
        PropNameData.word valueMaps (idx + 1) = Some v
  end.
Proof.
  unfold well_formed_ranges. intros Hwf.
  apply andb_prop in Hwf as [Hwf Hmax%Z.leb_le].
  apply andb_prop in Hwf as [Hwf Hw].
  apply andb_prop in Hwf as [Hok%forallb_Forall Hasc].
  unfold encode_ranges in *. cbn [forallb length] in Hw, Hmax.
  apply andb_prop in Hw as [Hn Hw].
  cbv zeta. rewrite <- app_comm_cons.
  rewrite findProperty_unfold by done.
  apply (findProperty_loop_record property rest rs
           [Z.of_nat (length rs)]); try done; simpl; lia.
Qed.

(** ** PropNameFacade *)

Section Facade.
Context `{Platform}.
Context {T : Type} `{ByteTrie T}.

Lemma getPropertyOrValueEnum_stores offset alias v :
  stores (T:=T) (trie_at offset) alias v →
  PropNameData.getPropertyOrValueEnum (T:=T) offset (Some alias) = v.
Proof.
  intros [Hfound Hv]. unfold PropNameData.getPropertyOrValueEnum. simpl.
  rewrite containsName_loop_feed.
  destruct (feed (trie_at offset) (significant alias)) as [found trie].
  simpl in *. by rewrite Hfound.
Qed.

(** C3, as the code has it.  On a well-formed table whose value maps
    can be read, [getPropertyValueEnum] always returns a value, and it
    returns the invalid-enumeration sentinel exactly when the property
    is not covered by any range of the property table, or the
    property's value-map offset is 0, or the alias does not match the
    property's automaton, or the value the automaton stores for the
    alias is the sentinel itself.  A null alias is a non-match that
    leaves the automaton as it was. *)
Theorem getPropertyValueEnum_taxonomy
    (rs : list prop_range) (rest : list Z) (property : Z)
    (alias : option (list ascii)) :
  well_formed_ranges rs = true →
  value_maps_readable (encode_ranges rs ++ rest) rs = true →
  (∀ trie : T, PropNameData.containsName trie None = (false, trie)) ∧
  ∃ r,
    PropNameData.getPropertyValueEnum (T:=T)
      (encode_ranges rs ++ rest) property alias = Some r ∧
    (r = UCHAR_INVALID_CODE ↔
       record_of rs property = None ∨
       (∃ g, record_of rs property = Some (g, 0)) ∨
       (∃ g valueMap offset,
          record_of rs property = Some (g, valueMap) ∧ valueMap ≠ 0 ∧
          PropNameData.word (encode_ranges rs ++ rest) valueMap
            = Some offset ∧
          ((PropNameData.containsName (T:=T) (trie_at offset) alias).1
             = false ∨
           getValue
             (PropNameData.containsName (T:=T) (trie_at offset) alias).2
             = UCHAR_INVALID_CODE))).
Proof.
  intros Hwf Hread. split; [done|].
  pose proof (findProperty_record rs rest property Hwf) as Hfind.
  cbv zeta in Hfind. unfold PropNameData.getPropertyValueEnum.
  destruct (record_of rs property) as [[g valueMap]|] eqn:Hrec.
  - destruct Hfind as (idx & -> & Hidx & Hmax & Hg & Hv).
    cbn [mbind option_bind].
    apply Z.eqb_neq in Hidx as ->.
    pose proof (word_inv _ _ _ Hg) as [Hi _].
    rewrite (int32_Some (idx + 1)) by (unfold int32_min; lia).
    cbn [mbind option_bind]. rewrite Hv. cbn [mbind option_bind].
    destruct (Z.eqb_spec valueMap 0) as [->|Hnz].
    + eexists. split; [done|]. split; [|done].
      intros _. right. left. by exists g.
    + (* the value map is readable *)
      assert (∃ offset, PropNameData.word (encode_ranges rs ++ rest)
                          valueMap = Some offset) as [offset Hoff].
      { unfold record_of in Hrec.
        apply bind_Some in Hrec as (r & Hr%find_some & Hk).
        destruct Hr as [Hr _].
        unfold value_maps_readable in Hread.
        rewrite forallb_forall in Hread. specialize (Hread r Hr).
        pose proof (forallb_lookup _ _ _ _ Hread Hk) as Hv'.
        simpl in Hv'. apply Z.eqb_neq in Hnz. rewrite Hnz in Hv'.
        simpl in Hv'.
        destruct (PropNameData.word _ valueMap) as [offset|]; [|done].
        by exists offset. }
      rewrite Hoff. cbn [mbind option_bind].
      eexists. split; [done|].
      unfold PropNameData.getPropertyOrValueEnum.
      destruct (PropNameData.containsName (trie_at offset) alias)
        as [found trie] eqn:Hc.
      split.
      * intros Hr. right. right. exists g, valueMap, offset.
        rewrite Hc. split_and!; try done. simpl.
        destruct found; [by right|by left].
      * intros [|[[g' [= _ ->]]|(g' & vm' & off' & [= <- <-] & _ & Hoff' & Hr)]];
          try done.
        rewrite Hoff in Hoff'. injection Hoff' as <-.
        rewrite Hc in Hr. simpl in Hr.
        destruct found; [|done]. by destruct Hr.
  - rewrite Hfind. cbn [mbind option_bind]. simpl.
    eexists. split; [done|]. split; [by left|done].
Qed.
End Facade.

(** ** NameGroupDecoder *)

Section NameGroup.
Context `{Platform}.

Lemma c_str_name name : ∀ tail,
  Forall (λ c, code c ≠ 0) name →
  c_str (name ++ zero :: tail) = Some name.
Proof.
  induction name as [|c name IH]; intros tail Hname; simpl.
  - by rewrite int_of_char_is_zero.
  - apply Forall_cons in Hname as [Hc Hname].
    rewrite int_of_char_is_zero. apply Z.eqb_neq in Hc as ->.
    by rewrite IH.
Qed.

(** C4.  For a name group whose first byte is the count of names,
    [getName] reports not-found when the index is negative, when it is
    not below the count, and at index 0 when the first stored name is
    empty; the empty-name check applies at index 0 only: on a group with
    at least two names whose first name is empty and whose second is
    not, index 1 returns the second name. *)
Theorem getName_bounds
    (count : ascii) (names name2 tail : list ascii) (i : Z) :
  (i < 0 ∨ int_of_char count ≤ i →
   PropNameData.getName (count :: names) i = Some NULL) ∧
  (head names = Some zero →
   PropNameData.getName (count :: names) 0 = Some NULL) ∧
  (2 ≤ int_of_char count → name2 ≠ [] →
   Forall (λ c, code c ≠ 0) name2 →
   names = zero :: name2 ++ zero :: tail →
   PropNameData.getName (count :: names) 1
     = Some (Ptr (name2 ++ zero :: tail)) ∧
   returns_name (PropNameData.getName (count :: names) 1) name2).
Proof.
  unfold PropNameData.getName. split_and!.
  - intros Hi.
    assert ((i <? 0) || (int_of_char count <=? i) = true) as ->; [|done].
    destruct Hi; zbool.
  - intros Hhead. simpl.
    destruct (int_of_char count <=? 0); [done|].
    rewrite Hhead. cbn [mbind option_bind].
    by rewrite int_of_char_is_zero.
  - intros Hcount Hne Hname2 ->.
    assert ((1 <? 0) || (int_of_char count <=? 1) = false) as -> by zbool.
    assert (PropNameData.skip_names (Z.to_nat 1)
              (zero :: name2 ++ zero :: tail)
            = Some (name2 ++ zero :: tail)) as Hskip.
    { simpl. by rewrite int_of_char_is_zero. }
    simpl in *. rewrite int_of_char_is_zero. simpl.
    split; [done|].
    eexists. split; [done|]. by apply c_str_name.
Qed.
End NameGroup.

(** ** ValueMapResolver *)

(** The fuel of the list scan never runs out: the scan leaves the loop by
    itself once the index reaches [nameGroupOffsetsStart], so any two
    amounts of fuel above the distance left give the same result. *)
Lemma list_loop_fuel valueMaps valuesStart nameGroupOffsetsStart value :
  ∀ fuel fuel' valueMapIndex,
  (Z.to_nat (nameGroupOffsetsStart - valueMapIndex) < fuel)%nat →
  (Z.to_nat (nameGroupOffsetsStart - valueMapIndex) < fuel')%nat →
  PropNameData.list_loop valueMaps fuel
    valuesStart nameGroupOffsetsStart valueMapIndex value =
  PropNameData.list_loop valueMaps fuel'
    valuesStart nameGroupOffsetsStart valueMapIndex value.
Proof.
  induction fuel as [|fuel IH]; intros [|fuel'] valueMapIndex Hf Hf';
    try lia.
  cbn [PropNameData.list_loop].
  destruct (PropNameData.word valueMaps valueMapIndex) as [v|]; [|done].
  cbn [mbind option_bind].
  destruct (value <? v); [done|]. destruct (value =? v); [done|].
  destruct (int32 (valueMapIndex + 1)) as [j|] eqn:Hj; [|done].
  apply int32_inv in Hj as [-> _]. cbn [mbind option_bind].
  destruct (Z.ltb_spec (valueMapIndex + 1) nameGroupOffsetsStart); [|done].
  apply IH; lia.
Qed.

(** C9.  When the count word of a value map is exactly the sparse
    threshold 0x10 (an empty sparse list), [findPropertyValueNameGroup]
    still runs the list scan once: it reads the word behind the count as
    a candidate value and, when it equals the value code, returns that
    same word as the name-group offset; otherwise it returns 0.  (The
    index arithmetic of the scan must fit [int32_t].) *)
Theorem sparse_threshold_scans_once
    (valueMaps : list Z) (valueMapIndex value w : Z) :
  valueMapIndex ≠ 0 →
  PropNameData.word valueMaps (valueMapIndex + 1) = Some 0x10 →
  PropNameData.word valueMaps (valueMapIndex + 2) = Some w →
  2 * valueMapIndex + 4 ≤ int32_max →
  PropNameData.findPropertyValueNameGroup valueMaps valueMapIndex value =
    Some (if value =? w then w else 0).
Proof.
  intros Hnz Hcount Hword Hmax.
  pose proof (word_inv _ _ _ Hcount) as [Hi _].
  unfold PropNameData.findPropertyValueNameGroup.
  apply Z.eqb_neq in Hnz as ->.
  unfold int32_min, int32_max in *.
  rewrite (int32_Some (valueMapIndex + 1))
    by (unfold int32_min, int32_max; lia).
  cbn [mbind option_bind]. rewrite Hcount. cbn [mbind option_bind].
  replace (valueMapIndex + 1 + 1) with (valueMapIndex + 2) by lia.
  rewrite (int32_Some (valueMapIndex + 2))
    by (unfold int32_min, int32_max; lia).
  cbn [mbind option_bind]. change (16 <? 16) with false. cbv iota.
  rewrite (int32_Some (valueMapIndex + 2 + 16))
    by (unfold int32_min, int32_max; lia).
  cbn [mbind option_bind].
  replace (valueMapIndex + 2 + 16 - 16) with (valueMapIndex + 2) by lia.
  rewrite (int32_Some (valueMapIndex + 2))
    by (unfold int32_min, int32_max; lia).
  cbn [mbind option_bind]. change (Z.to_nat (16 - 16)) with 0%nat.
  cbn [PropNameData.list_loop]. rewrite Hword. cbn [mbind option_bind].
  destruct (Z.ltb_spec value w) as [Hlt|Hge].
  - destruct (Z.eqb_spec value w); [lia|done].
  - destruct (Z.eqb_spec value w) as [->|Hne].
    + rewrite (int32_Some (valueMapIndex + 2 + (valueMapIndex + 2)))
        by (unfold int32_min, int32_max; lia).
      cbn [mbind option_bind].
      replace (valueMapIndex + 2 + (valueMapIndex + 2) - (valueMapIndex + 2))
        with (valueMapIndex + 2) by lia.
      rewrite (int32_Some (valueMapIndex + 2))
        by (unfold int32_min, int32_max; lia).
      cbn [mbind option_bind]. done.
    + rewrite (int32_Some (valueMapIndex + 2 + 1))
        by (unfold int32_min, int32_max; lia).
      cbn [mbind option_bind].
      destruct (Z.ltb_spec (valueMapIndex + 2 + 1) (valueMapIndex + 2));
        [lia|done].
Qed.

(** ** The scenario of the specification *)

Section Scenario.
Context `{Platform}.
Context {T : Type} `{ByteTrie T}.

(** C6.  On the scenario table (the single property range (0,2) whose
    value map is dense with the single value range (0,1) named by
    groupX = [{count:2, "Foo\0Foobar\0"}]), with an automaton that
    stores "Foo" for the value 0: the names of value 0 of property 0 are
    "Foo" and "Foobar", value 2 has no name although property 2 exists,
    and the alias "f-o-o" resolves to 0. *)
Theorem scenario_lookups :
  stores (T:=T) (trie_at 64) (str "Foo") 0 →
  returns_name
    (PropNameData.getPropertyValueName
       scenario_valueMaps scenario_nameGroups 0 0 0) (str "Foo") ∧
  returns_name
    (PropNameData.getPropertyValueName
       scenario_valueMaps scenario_nameGroups 0 0 1) (str "Foobar") ∧
  PropNameData.getPropertyValueName
    scenario_valueMaps scenario_nameGroups 0 2 0 = Some NULL ∧
  PropNameData.getPropertyValueEnum (T:=T)
    scenario_valueMaps 0 (Some (str "f-o-o")) = Some 0.
Proof.
  intros Hstored. split_and!.
  - destruct H as [[]]; eexists; split; vm_compute; reflexivity.
  - destruct H as [[]]; eexists; split; vm_compute; reflexivity.
  - destruct H as [[]]; vm_compute; reflexivity.
  - change (PropNameData.getPropertyValueEnum
              scenario_valueMaps 0 (Some (str "f-o-o")))
      with (Some (PropNameData.getPropertyOrValueEnum (T:=T)
                    64 (Some (str "f-o-o")))).
    f_equal. apply getPropertyOrValueEnum_stores.
    destruct Hstored as [Hfound Hvalue]. unfold stores.
    assert (significant (str "f-o-o") = significant (str "Foo")) as ->; [|done].
    destruct H as [[]]; vm_compute; reflexivity.
Qed.
End Scenario.

(** ** The claims at concrete inputs *)

Lemma reverse_lookup_loose_invariant_witness :
  let P := signed_chars in
  let A := model_ByteTrie scenario_blob in
  let b := str " f-O_o" ++ [char_of 0x09] in
  loose_variant (str "Foo") b ∧
  @PropNameData.getPropertyValueEnum P _ A
    scenario_valueMaps 0 (Some b) = Some 0.
Proof.
  intros P A b.
  assert (loose_variant (str "Foo") b) as Hv.
  { apply lv_insert; [reflexivity|].
    apply (lv_flip "F"%char).
    apply lv_insert; [reflexivity|].
    apply (lv_flip "o"%char).
    apply lv_insert; [reflexivity|].
    apply lv_keep.
    apply lv_insert; [reflexivity|].
    apply lv_nil. }
  split; [exact Hv|].
  rewrite <- (proj2 (@reverse_lookup_loose_invariant P _ A _ _ Hv)).
  reflexivity.
Defined.

Lemma getPropertyValueEnum_taxonomy_witness :
  let P := signed_chars in
  let A := model_ByteTrie scenario_blob in
  well_formed_ranges scenario_ranges = true ∧
  value_maps_readable scenario_valueMaps scenario_ranges = true ∧
  ∃ r,
    @PropNameData.getPropertyValueEnum P _ A
      scenario_valueMaps 0 (Some (str "Fo")) = Some r ∧
    r = UCHAR_INVALID_CODE.
Proof.
  intros P A.
  assert (well_formed_ranges scenario_ranges = true) as Hwf by reflexivity.
  assert (value_maps_readable scenario_valueMaps scenario_ranges = true)
    as Hread by reflexivity.
  split_and!; [exact Hwf|exact Hread|].
  destruct (@getPropertyValueEnum_taxonomy P _ A scenario_ranges
              [64; 1; 0; 1; 1; 1] 0 (Some (str "Fo")) Hwf Hread)
    as (_ & r & Hr & Hiff).
  exists r. split; [exact Hr|].
  apply Hiff. right. right. exists 13, 9, 64.
  split_and!; [reflexivity|discriminate|reflexivity|left; reflexivity].
Defined.

(** C3, as the claim words it ("exactly when"), fails: the automaton may
    store the sentinel as the value of an alias.  Here the property is
    covered, its value-map offset is 9 and the alias "x" matches, and the
    result is the sentinel all the same. *)
Lemma getPropertyValueEnum_sentinel_stored :
  let P := signed_chars in
  let A := model_ByteTrie sentinel_blob in
  ¬ (@PropNameData.getPropertyValueEnum P _ A
       scenario_valueMaps 0 (Some (str "x")) = Some UCHAR_INVALID_CODE →
     record_of scenario_ranges 0 = None ∨
     (∃ g, record_of scenario_ranges 0 = Some (g, 0)) ∨
     (@PropNameData.containsName P _ A (trie_at 64) (Some (str "x"))).1
       = false).
Proof.
  intros P A Hclaim.
  destruct (Hclaim eq_refl) as [Hr|[[g Hr]|Hr]]; vm_compute in Hr;
    discriminate Hr.
Qed.

Lemma getName_bounds_witness :
  let P := signed_chars in
  let group := char_of 2 :: zero :: str "Bar" ++ [zero] in
  (-1 < 0 ∨ @int_of_char P (char_of 2) ≤ -1) ∧
  @PropNameData.getName P group (-1) = Some NULL ∧
  @PropNameData.getName P group 2 = Some NULL ∧
  @PropNameData.getName P group 0 = Some NULL ∧
  @returns_name P (@PropNameData.getName P group 1) (str "Bar").
Proof.
  intros P group.
  assert (-1 < 0 ∨ @int_of_char P (char_of 2) ≤ -1) as Hneg by (left; lia).
  assert (2 < 0 ∨ @int_of_char P (char_of 2) ≤ 2) as Hcount
    by (right; vm_compute; discriminate).
  assert (Forall (λ c, code c ≠ 0) (str "Bar")) as Hbar
    by (repeat constructor; discriminate).
  split_and!.
  - exact Hneg.
  - exact (proj1 (@getName_bounds P (char_of 2) (zero :: str "Bar" ++ [zero])
                    (str "Bar") [] (-1)) Hneg).
  - exact (proj1 (@getName_bounds P (char_of 2) (zero :: str "Bar" ++ [zero])
                    (str "Bar") [] 2) Hcount).
  - exact (proj1 (proj2 (@getName_bounds P (char_of 2)
                    (zero :: str "Bar" ++ [zero]) (str "Bar") [] 0)) eq_refl).
  - refine (proj2 (proj2 (proj2 (@getName_bounds P (char_of 2)
                    (zero :: str "Bar" ++ [zero]) (str "Bar") [] 0))
                    _ _ Hbar eq_refl)).
    + vm_compute. discriminate.
    + discriminate.
Defined.

Lemma findProperty_outside_ranges_witness :
  well_formed_ranges two_ranges = true ∧
  PropNameData.findProperty (encode_ranges two_ranges) 1 = Some 0 ∧
  PropNameData.findProperty (encode_ranges two_ranges) 9 = Some 0 ∧
  PropNameData.findProperty [2; 2; 3; 1; 0; 4; 0; 7; 7] 5 = Some 0.
Proof.
  assert (well_formed_ranges two_ranges = true) as Hwf by reflexivity.
  split_and!.
  - exact Hwf.
  - rewrite <- (app_nil_r (encode_ranges two_ranges)).
    refine (proj1 (findProperty_outside_ranges two_ranges [] 1 Hwf)
              _ _ eq_refl _).
    simpl. lia.
  - rewrite <- (app_nil_r (encode_ranges two_ranges)).
    refine (proj1 (proj2 (findProperty_outside_ranges two_ranges [] 9 Hwf))
              [_] _ eq_refl _).
    simpl. lia.
  - refine (proj2 (proj2 (findProperty_outside_ranges two_ranges [] 5 Hwf))
              [_] _ [] eq_refl _ _).
    + repeat constructor.
    + simpl. lia.
Defined.

Lemma scenario_lookups_witness :
  let P := signed_chars in
  let A := model_ByteTrie scenario_blob in
  @stores _ A P (trie_at 64) (str "Foo") 0 ∧
  @PropNameData.getPropertyValueEnum P _ A
    scenario_valueMaps 0 (Some (str "f-o-o")) = Some 0.
Proof.
  intros P A.
  assert (@stores _ A P (trie_at 64) (str "Foo") 0) as Hst
    by (split; reflexivity).
  split; [exact Hst|].
  exact (proj2 (proj2 (proj2 (@scenario_lookups P _ A Hst)))).
Defined.

Lemma empty_alias_asks_initial_position_witness :
  let P := signed_chars in
  let A := model_ByteTrie empty_key_blob in
  all_delimiters (str " -_") ∧
  @PropNameData.getPropertyOrValueEnum P _ A 0 (Some (str " -_")) = 7 ∧
  @PropNameData.getPropertyEnum P _ A (Some []) = 7.
Proof.
  intros P A.
  assert (all_delimiters (str " -_")) as Hd by (repeat constructor).
  destruct (@empty_alias_asks_initial_position P _ A (str " -_")
              (trie_at 0) 0 Hd) as (_ & _ & Halias & Hempty).
  split_and!; [exact Hd|rewrite Halias; reflexivity|rewrite Hempty; reflexivity].
Defined.

Lemma sparse_threshold_scans_once_witness :
  let valueMaps := [0; 5; 16; 42] in
  1 ≠ 0 ∧
  PropNameData.word valueMaps (1 + 1) = Some 16 ∧
  PropNameData.word valueMaps (1 + 2) = Some 42 ∧
  2 * 1 + 4 ≤ int32_max ∧
  PropNameData.findPropertyValueNameGroup valueMaps 1 42 = Some 42 ∧
  PropNameData.findPropertyValueNameGroup valueMaps 1 43 = Some 0.
Proof.
  intros valueMaps.
  assert (1 ≠ 0) as H1 by lia.
  assert (PropNameData.word valueMaps (1 + 1) = Some 16) as H2 by reflexivity.
  assert (PropNameData.word valueMaps (1 + 2) = Some 42) as H3 by reflexivity.
  assert (2 * 1 + 4 ≤ int32_max) as H4 by (unfold int32_max; lia).
  split_and!; [exact H1|exact H2|exact H3|exact H4| |].
  - exact (sparse_threshold_scans_once valueMaps 1 42 42 H1 H2 H3 H4).
  - exact (sparse_threshold_scans_once valueMaps 1 43 42 H1 H2 H3 H4).
Defined.

Lemma findProperty_hit_at_least_3_witness :
  PropNameData.findProperty (encode_ranges two_ranges) 7 = Some 9 ∧
  9 ≠ 0 ∧ 3 ≤ 9.
Proof.
  assert (PropNameData.findProperty (encode_ranges two_ranges) 7 = Some 9)
    as Hf by reflexivity.
  assert (9 ≠ 0) as Hnz by lia.
  split_and!; [exact Hf|exact Hnz|].
  exact (findProperty_hit_at_least_3 _ 7 9 Hf Hnz).
Defined.

(** * Further properties of the code *)

(** ** The comparator, without a bound on its input *)

Section ComparatorMore.
Context `{Platform}.

Lemma delimiter_run_bounds s : 0 ≤ delimiter_run s ≤ Z.of_nat (length s).
Proof.
  induction s as [|c s IH]; simpl; [lia|].
  destruct (is_delimiter (code c)); lia.
Qed.

Lemma skip_delimiters_stops name : ∀ i j c,
  skip_delimiters name i = (j, c) → is_delimiter (code c) = false.
Proof.
  induction name as [|a name IH]; intros i j c Hs; simpl in Hs.
  - by inversion Hs.
  - rewrite int_of_char_delimiter in Hs.
    destruct (is_delimiter (code a)) eqn:Hd; [by eapply IH|].
    by inversion Hs; subst.
Qed.

Lemma asciitolower_not_upper c :
  ¬ (0x41 ≤ code (uprv_asciitolower c) ≤ 0x5a).
Proof.
  all_chars c; intros [H1 H2]; first [by apply H1|by apply H2].
Qed.

Lemma skip_delimiters_exact name : ∀ i j c,
  skip_delimiters name i = (j, c) → j = i + delimiter_run name + 1.
Proof.
  induction name as [|a name IH]; intros i j c Hs; simpl in Hs.
  - inversion Hs; subst. simpl. lia.
  - rewrite int_of_char_delimiter in Hs. cbn [delimiter_run].
    destruct (is_delimiter (code a)).
    + apply IH in Hs. lia.
    + inversion Hs; subst. lia.
Qed.

Lemma skip_delimiters_shift name : ∀ i d,
  skip_delimiters name (i + d) =
    ((skip_delimiters name i).1 + d, (skip_delimiters name i).2).
Proof.
  induction name as [|a name IH]; intros i d; simpl.
  - f_equal. lia.
  - destruct (is_delimiter (int_of_char a)); [|simpl; f_equal; lia].
    replace (i + d + 1) with (i + 1 + d) by lia. apply IH.
Qed.

(** From a place inside the run of delimiters, the same character is
    found, the counter less by what was dropped. *)
Lemma skip_delimiters_drop name : ∀ k,
  0 ≤ k < (skip_delimiters name 0).1 →
  skip_delimiters (drop (Z.to_nat k) name) 0 =
    ((skip_delimiters name 0).1 - k, (skip_delimiters name 0).2).
Proof.
  induction name as [|a name IH]; intros k Hk.
  - simpl in *. rewrite drop_nil. simpl. f_equal. lia.
  - destruct (Z.eq_dec k 0) as [->|Hnz].
    { simpl (drop _ _). destruct (skip_delimiters (a :: name) 0).
      simpl. f_equal. lia. }
    replace (Z.to_nat k) with (S (Z.to_nat (k - 1))) by lia.
    cbn [drop]. cbn [skip_delimiters] in *.
    destruct (is_delimiter (int_of_char a)).
    + rewrite (skip_delimiters_shift name 0 1) in *. simpl in Hk |- *.
      rewrite IH by lia. f_equal. lia.
    + simpl in Hk. lia.
Qed.

(** What a defined result of [getASCIIPropertyNameChar] says, whatever
    the string: the counter [i] the loop ends with, of which the packed
    result keeps the low 24 bits, and the character [ch]. *)
Lemma getASCIIPropertyNameChar_inv name r :
  getASCIIPropertyNameChar name = Some r →
  ∃ i ch,
    r = Z.lor (Z.shiftl (packed_advance i) 8) ch ∧
    (skip_delimiters name 0).1 = i ∧
    i = delimiter_run name + 1 ∧
    is_delimiter ch = false ∧ ¬ (0x41 ≤ ch ≤ 0x5a) ∧
    ((ch = 0 ∧ code (skip_delimiters name 0).2 = 0 ∧ significant name = []) ∨
     (0 < ch < 256 ∧ code (skip_delimiters name 0).2 ≠ 0 ∧
      i ≤ Z.of_nat (length name) ∧
      significant name = ch :: significant (drop (Z.to_nat i) name))).
Proof.
  unfold getASCIIPropertyNameChar.
  destruct (skip_delimiters name 0) as [j c] eqn:Hs.
  pose proof (skip_delimiters_stops _ _ _ _ Hs) as Hstop.
  pose proof (skip_delimiters_exact _ _ _ _ Hs) as Hexact.
  apply skip_delimiters_spec in Hs as [Hj Hs].
  intros Hr. apply bind_Some in Hr as (i & [-> _]%int32_inv & Hr).
  rewrite wrap32_shiftl, int_of_char_is_zero in Hr.
  replace (j - 0) with j in Hs by lia.
  destruct Hs as [[Hc Hs]|(Hc & Hl & Hs & _)].
  - apply Z.eqb_eq in Hc as Hc'. rewrite Hc' in Hr. simpl in Hr.
    injection Hr as <-. exists j, 0. rewrite Z.lor_0_r.
    split_and!; [done|done|lia|done|lia|by left].
  - apply Z.eqb_neq in Hc as Hc'. rewrite Hc' in Hr. simpl in Hr.
    injection Hr as <-. exists j, (code (uprv_asciitolower c)).
    split_and!; [done|done|lia| | |right].
    + by rewrite asciitolower_delimiter.
    + apply asciitolower_not_upper.
    + split_and!; [by apply asciitolower_nonzero..|done|done|done].
Qed.

(** A string behind an overflowing run stays behind one: the low byte of
    the packed result is the character, and the advance, where it stays
    in the string, stops short of the character. *)
Lemma overflows_step name r :
  overflows name → getASCIIPropertyNameChar name = Some r →
  Z.land r 0xff ≠ 0 ∧
  ∀ name', advance name (Z.shiftr r 8) = Some name' → overflows name'.
Proof.
  intros [Hbig Hc] (i & ch & -> & Hi & _ & _ & _ & Hs)%getASCIIPropertyNameChar_inv.
  destruct Hs as [(_ & Hz & _)|(Hch & _ & _ & _)]; [done|].
  rewrite pack_low, pack_high by lia. split; [lia|].
  intros name' Hadv. unfold advance in Hadv.
  destruct (Z.leb_spec 0 (packed_advance i)) as [Hpos|]; [|done].
  destruct (_ <=? _); [|done]. injection Hadv as <-.
  pose proof (packed_advance_range i) as Hrange.
  rewrite Hi in Hbig.
  pose proof (packed_advance_short i Hbig) as Hshort.
  unfold overflows. rewrite skip_delimiters_drop by lia.
  simpl. split; [lia|done].
Qed.

(** One round of the comparator on one string: behind the advance the
    stream is what followed the character, unless the run overflows. *)
Lemma advance_stream name r name' :
  getASCIIPropertyNameChar name = Some r →
  Z.land r 0xff ≠ 0 →
  advance name (Z.shiftr r 8) = Some name' →
  overflows name' ∨ significant name = Z.land r 0xff :: significant name'.
Proof.
  intros Hr Hnz Hadv.
  destruct (Z.le_gt_cases 8388608 (skip_delimiters name 0).1) as [Hbig|Hsmall].
  - left. pose proof Hr as Hr'.
    apply getASCIIPropertyNameChar_inv in Hr'
      as (i & ch & -> & Hi & _ & _ & _ & Hs).
    destruct Hs as [(-> & _ & _)|(Hch & Hc & _ & _)].
    { rewrite Z.lor_0_r in Hnz. exfalso. apply Hnz.
      change 0xff with (Z.ones 8). rewrite Z.land_ones by lia.
      rewrite Z.shiftl_mul_pow2 by lia. apply Z.mod_mul. lia. }
    eapply (overflows_step name); [by split|exact Hr|exact Hadv].
  - right.
    apply getASCIIPropertyNameChar_inv in Hr
      as (i & ch & -> & Hi & Hrun & _ & _ & Hs).
    pose proof (delimiter_run_bounds name) as Hb.
    rewrite Hi in Hsmall. rewrite packed_advance_small in * by lia.
    destruct Hs as [(-> & _ & _)|(Hch & _ & Hl & Hs)].
    { rewrite Z.lor_0_r in Hnz. exfalso. apply Hnz.
      change 0xff with (Z.ones 8). rewrite Z.land_ones by lia.
      rewrite Z.shiftl_mul_pow2 by lia. apply Z.mod_mul. lia. }
    rewrite pack_low, pack_high in * by lia.
    unfold advance in Hadv. destruct (_ && _); [|done].
    by injection Hadv as <-.
Qed.

Lemma stream_ended name r :
  getASCIIPropertyNameChar name = Some r →
  Z.land r 0xff = 0 → significant name = [].
Proof.
  intros (i & ch & -> & _ & _ & _ & _ & Hs)%getASCIIPropertyNameChar_inv.
  destruct Hs as [(_ & _ & Hs)|(Hch & _)]; [done|].
  rewrite pack_low by lia. lia.
Qed.

(** Behind an overflowing run the comparator never reports equality. *)
Lemma compare_loop_overflows fuel : ∀ name1 name2,
  overflows name1 ∨ overflows name2 →
  compare_loop fuel name1 name2 ≠ Some 0.
Proof.
  induction fuel as [|fuel IH]; intros name1 name2 Hover Hloop; [done|].
  cbn [compare_loop] in Hloop.
  apply bind_Some in Hloop as (r1 & Hr1 & Hloop).
  apply bind_Some in Hloop as (r2 & Hr2 & Hloop).
  pose proof (low_byte_range r1) as Hl1.
  pose proof (low_byte_range r2) as Hl2.
  rewrite pack_both_low in Hloop.
  destruct (Z.eqb_spec (Z.lor (Z.land r1 255) (Z.land r2 255)) 0) as [E|E].
  { apply Z.lor_eq_0_iff in E as [E1 E2].
    destruct Hover as [Ho|Ho].
    - by destruct (overflows_step _ _ Ho Hr1).
    - by destruct (overflows_step _ _ Ho Hr2). }
  destruct (negb (r1 =? r2) && negb (Z.land r1 255 - Z.land r2 255 =? 0))
    eqn:Hdiff.
  { apply andb_prop in Hdiff as [_ Hd]. injection Hloop as Hrc.
    rewrite Hrc in Hd. done. }
  apply bind_Some in Hloop as (n1 & Hn1 & Hloop).
  apply bind_Some in Hloop as (n2 & Hn2 & Hloop).
  apply (IH n1 n2); [|done].
  destruct Hover as [Ho|Ho].
  - left. by apply (proj2 (overflows_step _ _ Ho Hr1)).
  - right. by apply (proj2 (overflows_step _ _ Ho Hr2)).
Qed.

(** Whenever the comparator reports equality, the two streams are the
    same. *)
Lemma compare_loop_zero fuel : ∀ name1 name2,
  compare_loop fuel name1 name2 = Some 0 →
  significant name1 = significant name2.
Proof.
  induction fuel as [|fuel IH]; intros name1 name2 Hloop; [done|].
  cbn [compare_loop] in Hloop.
  apply bind_Some in Hloop as (r1 & Hr1 & Hloop).
  apply bind_Some in Hloop as (r2 & Hr2 & Hloop).
  pose proof (low_byte_range r1) as Hl1.
  pose proof (low_byte_range r2) as Hl2.
  rewrite pack_both_low in Hloop.
  destruct (Z.eqb_spec (Z.lor (Z.land r1 255) (Z.land r2 255)) 0) as [E|E].
  { apply Z.lor_eq_0_iff in E as [E1 E2].
    by rewrite (stream_ended _ _ Hr1 E1), (stream_ended _ _ Hr2 E2). }
  destruct (negb (r1 =? r2) && negb (Z.land r1 255 - Z.land r2 255 =? 0))
    eqn:Hdiff.
  { apply andb_prop in Hdiff as [_ Hd]. injection Hloop as Hrc.
    rewrite Hrc in Hd. done. }
  assert (Z.land r1 255 = Z.land r2 255) as Heq.
  { apply andb_false_iff in Hdiff as [Hd|Hd].
    - apply negb_false_iff, Z.eqb_eq in Hd. by rewrite Hd.
    - apply negb_false_iff, Z.eqb_eq in Hd. lia. }
  assert (Z.land r1 255 ≠ 0) as Hnz1.
  { intros Hz. apply E. rewrite <- Heq, Hz. done. }
  assert (Z.land r2 255 ≠ 0) as Hnz2 by (by rewrite <- Heq).
  apply bind_Some in Hloop as (n1 & Hn1 & Hloop).
  apply bind_Some in Hloop as (n2 & Hn2 & Hloop).
  destruct (advance_stream _ _ _ Hr1 Hnz1 Hn1) as [Ho| ->].
  { destruct (compare_loop_overflows fuel n1 n2); [by left|done]. }
  destruct (advance_stream _ _ _ Hr2 Hnz2 Hn2) as [Ho| ->].
  { destruct (compare_loop_overflows fuel n1 n2); [by right|done]. }
  rewrite Heq. f_equal. by apply IH.
Qed.

(** A result of the comparator is 0 or the difference of two low
    bytes. *)
Lemma compare_loop_range fuel : ∀ name1 name2 r,
  compare_loop fuel name1 name2 = Some r → -255 ≤ r ≤ 255.
Proof.
  induction fuel as [|fuel IH]; intros name1 name2 r Hloop; [done|].
  cbn [compare_loop] in Hloop.
  apply bind_Some in Hloop as (r1 & Hr1 & Hloop).
  apply bind_Some in Hloop as (r2 & Hr2 & Hloop).
  pose proof (low_byte_range r1) as Hl1.
  pose proof (low_byte_range r2) as Hl2.
  destruct (_ =? 0); [injection Hloop as <-; lia|].
  destruct (_ && _); [injection Hloop as <-; lia|].
  apply bind_Some in Hloop as (n1 & Hn1 & Hloop).
  apply bind_Some in Hloop as (n2 & Hn2 & Hloop).
  by eapply IH.
Qed.

(** X1.  Loose matching rule LM3 of the comparator: a name and any
    spelling of it that differs in case, whitespace, underscores and
    hyphens compare equal (the result is 0), as long as neither holds a
    run of 8388607 delimiters. *)
Theorem compare_loose_variants_equal (a b : list ascii) :
  loose_variant a b →
  fits_packing a = true → fits_packing b = true →
  uprv_compareASCIIPropertyNames a b = Some 0.
Proof.
  intros Hv Ha Hb. rewrite compare_spec by done.
  rewrite (loose_variant_significant a b Hv). f_equal.
  apply lex_compare_zero; try done; apply significant_positive.
Qed.

(** X2.  A result of the comparator is the difference of two bytes: it
    lies between -255 and 255, whatever the strings. *)
Theorem compare_result_range (a b : list ascii) (r : Z) :
  uprv_compareASCIIPropertyNames a b = Some r → -255 ≤ r ≤ 255.
Proof. apply compare_loop_range. Qed.

(** X3.  The packed result of [getASCIIPropertyNameChar].  For every
    string the low byte is never a delimiter nor an upper-case letter, is
    0 exactly when no significant character is left, and is otherwise
    the next lowercased significant character.  When the string starts
    with fewer than 8388607 delimiters, the upper bits are the advance
    count: the length of that run plus one, which is at least 1, stays
    within the string and its terminator, and leads to what follows the
    character. *)
Theorem getASCIIPropertyNameChar_packed (name : list ascii) (r : Z) :
  getASCIIPropertyNameChar name = Some r →
  is_delimiter (Z.land r 0xff) = false ∧
  ¬ (0x41 ≤ Z.land r 0xff ≤ 0x5a) ∧
  (Z.land r 0xff = 0 ↔ significant name = []) ∧
  (Z.land r 0xff ≠ 0 → head (significant name) = Some (Z.land r 0xff)) ∧
  (delimiter_run name < 8388607 →
   Z.shiftr r 8 = delimiter_run name + 1 ∧
   1 ≤ Z.shiftr r 8 ≤ Z.of_nat (length name) + 1 ∧
   (Z.land r 0xff ≠ 0 →
    significant name =
      Z.land r 0xff :: significant (drop (Z.to_nat (Z.shiftr r 8)) name))).
Proof.
  intros (i & ch & -> & _ & Hi & Hd & Hu & Hs)%getASCIIPropertyNameChar_inv.
  assert (0 ≤ ch < 256) as Hc by (destruct Hs as [[-> _]|[? _]]; lia).
  pose proof (delimiter_run_bounds name) as Hb.
  rewrite pack_low, pack_high by done.
  split; [done|]. split; [done|]. split; [|split].
  - destruct Hs as [(-> & _ & ->)|(? & _ & _ & ->)]; [done|].
    split; [lia|done].
  - intros Hnz. destruct Hs as [(-> & _)|(_ & _ & _ & ->)]; done.
  - intros Hrun. rewrite packed_advance_small by lia.
    split; [done|]. split; [lia|].
    intros Hnz. destruct Hs as [(-> & _)|(_ & _ & _ & ->)]; done.
Qed.

(** X17.  For all strings in which no run of delimiters reaches 8388607
    characters (the room the packed result [(advance<<8)|character] has
    for the advance count), [uprv_compareASCIIPropertyNames a b] is the
    three-way lexicographic comparison of the two streams of lowercased
    significant characters (what is left after skipping '-', '_', 0x20
    and 0x09..0x0d); it is 0 exactly when the two streams are identical;
    and "compare <= 0" is a total preorder: total, sign-antisymmetric and
    transitive. *)
Theorem compare_lexicographic_total_preorder (a b c : list ascii) :
  fits_packing a = true → fits_packing b = true → fits_packing c = true →
  uprv_compareASCIIPropertyNames a b =
    Some (lex_compare (significant a) (significant b)) ∧
  (uprv_compareASCIIPropertyNames a b = Some 0 ↔
     significant a = significant b) ∧
  (loose_le a b ∨ loose_le b a) ∧
  (∃ r, uprv_compareASCIIPropertyNames a b = Some r ∧
        uprv_compareASCIIPropertyNames b a = Some (- r)) ∧
  (loose_le a b → loose_le b c → loose_le a c).
Proof.
  intros Ha Hb Hc. unfold loose_le.
  rewrite !compare_spec by done.
  pose proof (significant_positive a) as Pa.
  pose proof (significant_positive b) as Pb.
  pose proof (significant_positive c) as Pc.
  split_and!.
  - done.
  - rewrite <- (lex_compare_zero _ _ Pa Pb).
    split; [by intros [= ->]|by intros ->].
  - rewrite (lex_compare_antisym (significant a) (significant b)).
    destruct (Z.le_ge_cases (lex_compare (significant a) (significant b)) 0);
      [left|right]; eexists; split; try done; lia.
  - eexists. split; [done|].
    by rewrite (lex_compare_antisym (significant a) (significant b)).
  - intros (r1 & [= <-] & H1) (r2 & [= <-] & H2).
    eexists. split; [done|].
    by apply (lex_compare_trans _ (significant b)).
Qed.
End ComparatorMore.

Section ComparatorAdapter.
Context `{Platform}.
Context {T : Type} `{ByteTrie T}.

(** X4.  The comparator and the reverse lookup agree on what an alias
    is: two aliases that compare equal resolve to the same result in
    every automaton, as a property name and as a value name of any
    property. *)
Theorem compare_equal_same_lookup (a b : list ascii) :
  uprv_compareASCIIPropertyNames a b = Some 0 →
  (∀ offset,
     PropNameData.getPropertyOrValueEnum (T:=T) offset (Some a) =
     PropNameData.getPropertyOrValueEnum offset (Some b)) ∧
  PropNameData.getPropertyEnum (T:=T) (Some a) =
    PropNameData.getPropertyEnum (Some b) ∧
  ∀ valueMaps property,
    PropNameData.getPropertyValueEnum (T:=T) valueMaps property (Some a) =
      PropNameData.getPropertyValueEnum valueMaps property (Some b).
Proof.
  intros Hcmp%compare_loop_zero.
  assert (∀ off, PropNameData.getPropertyOrValueEnum (T:=T) off (Some a) =
                 PropNameData.getPropertyOrValueEnum off (Some b)) as Heq.
  { intros off. unfold PropNameData.getPropertyOrValueEnum. simpl.
    by rewrite !containsName_loop_feed, Hcmp. }
  split_and!; [done|apply Heq|].
  intros valueMaps property. unfold PropNameData.getPropertyValueEnum.
  destruct (PropNameData.findProperty _ _) as [i|]; [simpl|done].
  destruct (i =? 0); [done|].
  destruct (int32 _) as [i1|]; [simpl|done].
  destruct (PropNameData.word _ i1) as [vmi|]; [simpl|done].
  destruct (vmi =? 0); [done|].
  destruct (PropNameData.word _ vmi) as [off|]; [simpl|done].
  by rewrite Heq.
Qed.
End ComparatorAdapter.

Lemma compare_loose_variants_equal_witness :
  let a := str "GcMask" in
  let b := str "gc_mask " in
  loose_variant a b ∧ fits_packing a = true ∧ fits_packing b = true ∧
  @uprv_compareASCIIPropertyNames signed_chars a b = Some 0.
Proof.
  intros a b.
  assert (loose_variant a b) as Hv.
  { apply (lv_flip "G"%char). apply lv_keep.
    apply lv_insert; [reflexivity|].
    apply (lv_flip "M"%char). do 3 apply lv_keep.
    apply lv_insert; [reflexivity|]. apply lv_nil. }
  assert (fits_packing a = true) as Ha by reflexivity.
  assert (fits_packing b = true) as Hb by reflexivity.
  split_and!; [exact Hv|exact Ha|exact Hb|].
  exact (@compare_loose_variants_equal signed_chars a b Hv Ha Hb).
Defined.

Lemma compare_result_range_witness :
  @uprv_compareASCIIPropertyNames signed_chars (str "z") (str "") = Some 122 ∧
  -255 ≤ 122 ≤ 255.
Proof.
  assert (@uprv_compareASCIIPropertyNames signed_chars (str "z") (str "")
            = Some 122) as Hc by reflexivity.
  split; [exact Hc|].
  exact (@compare_result_range signed_chars _ _ _ Hc).
Defined.

Lemma getASCIIPropertyNameChar_packed_witness :
  @getASCIIPropertyNameChar signed_chars (str "_-Xy") = Some 888 ∧
  delimiter_run (str "_-Xy") < 8388607 ∧
  Z.shiftr 888 8 = 3 ∧ Z.land 888 0xff = 120 ∧
  @significant signed_chars (str "_-Xy")
    = 120 :: @significant signed_chars (str "y").
Proof.
  assert (@getASCIIPropertyNameChar signed_chars (str "_-Xy") = Some 888)
    as Hg by reflexivity.
  assert (delimiter_run (str "_-Xy") < 8388607) as Hrun by (simpl; lia).
  split_and!; [exact Hg|exact Hrun|reflexivity|reflexivity|].
  refine (proj2 (proj2 (proj2 (proj2 (proj2 (proj2
            (@getASCIIPropertyNameChar_packed signed_chars _ _ Hg)))) Hrun)) _).
  discriminate.
Defined.

Lemma compare_lexicographic_total_preorder_witness :
  let a := str "Foo_Bar" in
  let b := str "foo bar" in
  let c := str "fop" in
  fits_packing a = true ∧ fits_packing b = true ∧ fits_packing c = true ∧
  @uprv_compareASCIIPropertyNames signed_chars a b = Some 0 ∧
  @loose_le signed_chars a c.
Proof.
  intros a b c.
  assert (fits_packing a = true) as Ha by reflexivity.
  assert (fits_packing b = true) as Hb by reflexivity.
  assert (fits_packing c = true) as Hc by reflexivity.
  destruct (@compare_lexicographic_total_preorder signed_chars a b c Ha Hb Hc)
    as (Hab & _ & _ & _ & Htrans).
  split_and!; try done.
  apply Htrans.
  - exists 0. split; [exact Hab|lia].
  - exists (-1). split; [reflexivity|lia].
Defined.

Lemma compare_equal_same_lookup_witness :
  let P := signed_chars in
  let A := model_ByteTrie scenario_blob in
  @uprv_compareASCIIPropertyNames P (str "FOO-BAR") (str "foobar") = Some 0 ∧
  @PropNameData.getPropertyValueEnum P _ A
    scenario_valueMaps 0 (Some (str "FOO-BAR")) = Some 0.
Proof.
  intros P A.
  assert (@uprv_compareASCIIPropertyNames P (str "FOO-BAR") (str "foobar")
            = Some 0) as Hc by reflexivity.
  split; [exact Hc|].
  rewrite (proj2 (proj2 (@compare_equal_same_lookup P _ A _ _ Hc))).
  reflexivity.
Defined.

(** ** NameGroupDecoder, on encoded groups *)

Section NameGroupDecode.
Context `{Platform}.

Lemma int_of_char_count n :
  0 ≤ n < 128 → int_of_char (char_of n) = n.
Proof.
  intros Hn. unfold int_of_char. rewrite code_char_of by lia.
  destruct char_is_signed; simpl; [|done].
  destruct (Z.leb_spec 128 n); [lia|done].
Qed.

Lemma after_terminator_name name : ∀ tail,
  Forall (λ c, code c ≠ 0) name →
  PropNameData.after_terminator (name ++ zero :: tail) = Some tail.
Proof.
  induction name as [|c name IH]; intros tail Hname; simpl.
  - by rewrite int_of_char_is_zero.
  - apply Forall_cons in Hname as [Hc Hname].
    rewrite int_of_char_is_zero. apply Z.eqb_neq in Hc as ->. by apply IH.
Qed.

Lemma skip_names_encoded names : ∀ k tail,
  Forall (Forall (λ c, code c ≠ 0)) names → (k ≤ length names)%nat →
  PropNameData.skip_names k (encode_names names ++ tail) =
    Some (encode_names (drop k names) ++ tail).
Proof.
  induction names as [|name names IH]; intros k tail Hok Hk.
  - simpl in Hk. by replace k with 0%nat by lia.
  - destruct k as [|k]; [done|].
    apply Forall_cons in Hok as [Hname Hok].
    cbn [PropNameData.skip_names encode_names flat_map].
    rewrite <- !app_assoc. cbn [app].
    rewrite after_terminator_name by done. cbn [mbind option_bind].
    apply IH; [done|]. simpl in Hk. lia.
Qed.

Lemma c_str_encoded name names tail :
  Forall (λ c, code c ≠ 0) name →
  c_str (encode_names (name :: names) ++ tail) = Some name.
Proof.
  intros Hname. cbn [encode_names flat_map].
  rewrite <- !app_assoc. cbn [app]. by apply c_str_name.
Qed.

(** The pointer [getName] returns at an index of an encoded group: the
    bytes of the group from the name at that index on. *)
Lemma getName_encoded_pointer
    (names : list (list ascii)) (tail name : list ascii) (i : Z) :
  names_ok names → 0 ≤ i →
  names !! Z.to_nat i = Some name →
  (i = 0 → name ≠ []) →
  PropNameData.getName (encode_group names ++ tail) i =
    Some (Ptr (encode_names (drop (Z.to_nat i) names) ++ tail)).
Proof.
  intros [Hcount Hok] Hi Hname Hshort.
  pose proof (lookup_lt_Some _ _ _ Hname) as Hlt.
  unfold encode_group, PropNameData.getName. cbn [app].
  rewrite int_of_char_count by lia.
  assert ((i <? 0) || (Z.of_nat (length names) <=? i) = false) as ->
    by zbool.
  assert (PropNameData.skip_names (Z.to_nat i) (encode_names names ++ tail)
          = Some (encode_names (drop (Z.to_nat i) names) ++ tail)) as Hskip
    by (apply skip_names_encoded; [done|lia]).
  rewrite Hskip.
  destruct (Z.eqb_spec i 0) as [->|Hnz]; [|done].
  (* index 0: the first name is not empty *)
  simpl in Hname. destruct names as [|name0 names]; [done|].
  injection Hname as ->.
  destruct name as [|c name]; [by destruct Hshort|].
  apply Forall_cons in Hok as [Hnul _].
  apply Forall_cons in Hnul as [Hc _].
  cbn [encode_names flat_map app head mbind option_bind].
  rewrite int_of_char_is_zero. by apply Z.eqb_neq in Hc as ->.
Qed.

(** The C string at that pointer is the name at the index. *)
Lemma c_str_encoded_drop
    (names : list (list ascii)) (tail name : list ascii) (k : nat) :
  names_ok names → names !! k = Some name →
  c_str (encode_names (drop k names) ++ tail) = Some name.
Proof.
  intros [_ Hok] Hname.
  rewrite (drop_S _ _ _ Hname). apply c_str_encoded.
  rewrite Forall_lookup in Hok. by eapply Hok.
Qed.

(** X5.  [getName] decodes what a name group encodes: on the bytes of a
    group of fewer than 128 NUL-free names, index [i] returns the [i]-th
    name, for every index within the count, except that index 0 with an
    empty first name is the "no short name" mark.  An empty name at a
    later index is returned as the empty string, not as not-found. *)
Theorem getName_decodes
    (names : list (list ascii)) (tail name : list ascii) (i : Z) :
  names_ok names → 0 ≤ i →
  names !! Z.to_nat i = Some name →
  (i = 0 → name ≠ []) →
  returns_name (PropNameData.getName (encode_group names ++ tail) i) name.
Proof.
  intros Hok Hi Hname Hshort.
  exists (encode_names (drop (Z.to_nat i) names) ++ tail). split.
  - by apply (getName_encoded_pointer names tail name).
  - by apply c_str_encoded_drop.
Qed.

(** X6.  On the bytes of such a group [getName] reports not-found in
    exactly three cases: a negative index, an index that is not below
    the count, and index 0 on an empty first name. *)
Theorem getName_not_found_iff
    (names : list (list ascii)) (tail : list ascii) (i : Z) :
  names_ok names →
  PropNameData.getName (encode_group names ++ tail) i = Some NULL ↔
  i < 0 ∨ Z.of_nat (length names) ≤ i ∨ (i = 0 ∧ head names = Some []).
Proof.
  intros Hok. split.
  - intros Hnull.
    destruct (Z.ltb_spec i 0) as [|Hi]; [by left|right].
    destruct (Z.leb_spec (Z.of_nat (length names)) i) as [|Hlt]; [by left|right].
    destruct (names !! Z.to_nat i) as [name|] eqn:Hname;
      [|apply lookup_ge_None in Hname; lia].
    destruct (Z.eq_dec i 0) as [->|Hnz].
    + destruct name as [|c name].
      * split; [done|]. by destruct names.
      * rewrite (getName_encoded_pointer names tail (c :: name) 0
                   Hok Hi Hname) in Hnull; done.
    + rewrite (getName_encoded_pointer names tail name i Hok Hi Hname)
        in Hnull; done.
  - destruct Hok as [Hcount Hok].
    unfold encode_group, PropNameData.getName. cbn [app].
    rewrite int_of_char_count by lia.
    intros [Hneg|[Hge|[-> Hhead]]].
    + assert ((i <? 0) || (Z.of_nat (length names) <=? i) = true) as ->
        by zbool. done.
    + assert ((i <? 0) || (Z.of_nat (length names) <=? i) = true) as ->
        by zbool. done.
    + destruct names as [|name0 names]; [done|]. injection Hhead as ->.
      simpl. by rewrite int_of_char_is_zero.
Qed.
End NameGroupDecode.

Lemma getName_decodes_witness :
  let names := [[]; str "Long_Name"; []; str "alias"] in
  names_ok names ∧
  @returns_name signed_chars
    (@PropNameData.getName signed_chars (encode_group names) 1)
    (str "Long_Name") ∧
  @returns_name signed_chars
    (@PropNameData.getName signed_chars (encode_group names) 2) [].
Proof.
  intros names.
  assert (names_ok names) as Hok.
  { split; [simpl; lia|]. repeat constructor; discriminate. }
  split; [exact Hok|].
  rewrite <- (app_nil_r (encode_group names)). split.
  - refine (@getName_decodes signed_chars names [] _ 1 Hok _ eq_refl _);
      [lia|discriminate].
  - refine (@getName_decodes signed_chars names [] _ 2 Hok _ eq_refl _);
      [lia|discriminate].
Defined.

Lemma getName_not_found_iff_witness :
  let names := [[]; str "Long_Name"] in
  names_ok names ∧
  @PropNameData.getName signed_chars (encode_group names) 0 = Some NULL.
Proof.
  intros names.
  assert (names_ok names) as Hok.
  { split; [simpl; lia|]. repeat constructor; discriminate. }
  split; [exact Hok|].
  rewrite <- (app_nil_r (encode_group names)).
  apply (proj2 (@getName_not_found_iff signed_chars names [] 0 Hok)).
  right. right. split; reflexivity.
Defined.

(** ** ValueMapResolver, on encoded value maps *)

Lemma word_at front block tail k w i :
  block !! k = Some w → is_int32 w = true →
  i = Z.of_nat (length front + k) → i ≤ int32_max →
  PropNameData.word (front ++ block ++ tail) i = Some w.
Proof. intros Hk Hw -> Hi. by apply word_middle. Qed.

(** One iteration of the scan over the ranges of values, once its two
    reads are known. *)
Lemma ranges_loop_step valueMaps n i value start end_ :
  PropNameData.word valueMaps i = Some start →
  PropNameData.word valueMaps (i + 1) = Some end_ →
  i + 2 ≤ int32_max →
  PropNameData.ranges_loop valueMaps (S n) i value =
    if value <? start then Some 0
    else if value <=? end_ then
      j ← int32 (i + 2 + value); j ← int32 (j - start);
      PropNameData.word valueMaps j
    else
      k ← int32 (end_ - start); k1 ← int32 (k + 1);
      j ← int32 (i + 2 + k1);
      PropNameData.ranges_loop valueMaps n j value.
Proof.
  intros Hs He Hmax. cbn [PropNameData.ranges_loop].
  pose proof (word_inv _ _ _ Hs) as [Hi _].
  rewrite Hs. cbn [mbind option_bind].
  rewrite (int32_Some (i + 1)) by (unfold int32_min; lia).
  cbn [mbind option_bind]. rewrite He. cbn [mbind option_bind].
  rewrite (int32_Some (i + 2)) by (unfold int32_min; lia).
  done.
Qed.

Lemma value_ranges_ascending_tail r rs :
  value_ranges_ascending (r :: rs) = true → value_ranges_ascending rs = true.
Proof. destruct rs as [|q rs]; [done|]. simpl. by intros [_ ?]%andb_prop. Qed.

Lemma value_ranges_ascending_after rs : ∀ r,
  Forall (λ q, value_range_ok q = true) rs →
  value_ranges_ascending (r :: rs) = true →
  Forall (λ q, vr_end r < vr_start q) rs.
Proof.
  induction rs as [|q rs IH]; intros r Hok Hasc; [constructor|].
  apply Forall_cons in Hok as [Hq Hok].
  cbn [value_ranges_ascending] in Hasc.
  apply andb_prop in Hasc as [Hrq Hasc]. apply Z.ltb_lt in Hrq.
  constructor; [done|].
  apply andb_prop in Hq as [Hq%Z.leb_le _].
  eapply Forall_impl; [by apply IH|]. simpl. lia.
Qed.

Section DenseScan.
Variable value : Z.
Variable tail : list Z.

Lemma ranges_loop_dense rs : ∀ front (bound : Z),
  Forall (λ r, value_range_ok r = true) rs →
  value_ranges_ascending rs = true →
  forallb is_int32 (flat_map encode_value_range rs) = true →
  Z.of_nat (length front + length (flat_map encode_value_range rs)) ≤ bound →
  Forall (λ r, bound + vr_end r ≤ int32_max) rs →
  bound ≤ int32_max →
  PropNameData.ranges_loop
    (front ++ flat_map encode_value_range rs ++ tail)
    (length rs) (Z.of_nat (length front)) value =
  Some (default 0 (group_of rs value)).
Proof.
  induction rs as [|r rs IH];
    intros front bound Hok Hasc Hw Hlen Hend Hbound; [done|].
  apply Forall_cons in Hok as [Hr Hok].
  apply Forall_cons in Hend as [Hre Hend].
  cbn [flat_map] in *. rewrite length_app in Hlen.
  apply forallb_app_inv in Hw as [Hw1 Hw2].
  rewrite <- (app_assoc (encode_value_range r)).
  apply andb_prop in Hr as Hr'.
  destruct Hr' as [Hse%Z.leb_le Hcount%Z.eqb_eq].
  assert (length (encode_value_range r)
          = (2 + length (vr_groups r))%nat) as Hlr by done.
  rewrite Hlr in Hlen.
  pose proof Hw1 as Hw1'. simpl in Hw1'.
  apply andb_prop in Hw1' as [Hs Hw1'].
  apply andb_prop in Hw1' as [He Hg].
  pose proof (word_at front (encode_value_range r)
                (flat_map encode_value_range rs ++ tail) 0 (vr_start r)
                (Z.of_nat (length front)) eq_refl Hs
                ltac:(lia) ltac:(lia)) as H0.
  pose proof (word_at front (encode_value_range r)
                (flat_map encode_value_range rs ++ tail) 1 (vr_end r)
                (Z.of_nat (length front) + 1) eq_refl He
                ltac:(lia) ltac:(lia)) as H1.
  cbn [length].
  rewrite (ranges_loop_step _ _ _ _ _ _ H0 H1) by lia.
  unfold is_int32, int32_min, int32_max in *.
  apply andb_prop in Hs as [Hs1%Z.leb_le Hs2%Z.leb_le].
  apply andb_prop in He as [He1%Z.leb_le He2%Z.leb_le].
  destruct (Z.ltb_spec value (vr_start r)) as [Hlt|Hge].
  - (* below the range: nothing later covers the value either *)
    assert (group_of (r :: rs) value = None) as ->; [|done].
    unfold group_of. rewrite find_all_false; [done|].
    constructor.
    + unfold value_covers.
      destruct (Z.leb_spec (vr_start r) value); [lia|done].
    + eapply Forall_impl;
        [by apply (value_ranges_ascending_after rs r)|].
      intros q Hq. simpl in Hq. unfold value_covers.
      destruct (Z.leb_spec (vr_start q) value); [lia|done].
  - destruct (Z.leb_spec value (vr_end r)) as [Hle|Hgt].
    + (* the range covers the value *)
      assert (value_covers r value = true) as Hc
        by (unfold value_covers; zbool).
      unfold group_of. cbn [List.find]. rewrite Hc.
      cbn [mbind option_bind].
      destruct (vr_groups r !! Z.to_nat (value - vr_start r))
        as [g|] eqn:Hg'; [|apply lookup_ge_None in Hg'; lia].
      rewrite (int32_Some (Z.of_nat (length front) + 2 + value))
        by (unfold int32_min, int32_max; lia).
      cbn [mbind option_bind].
      rewrite (int32_Some (Z.of_nat (length front) + 2 + value - vr_start r))
        by (unfold int32_min, int32_max; lia).
      cbn [mbind option_bind].
      pose proof (lookup_lt_Some _ _ _ Hg') as Hk.
      apply (word_at front (encode_value_range r) _
               (2 + Z.to_nat (value - vr_start r))); [done| |lia|].
      * by apply (forallb_lookup _ _ _ _ Hg Hg').
      * unfold int32_max. lia.
    + (* above the range: the scan moves on *)
      assert (value_covers r value = false) as Hc
        by (unfold value_covers; zbool).
      assert (group_of (r :: rs) value = group_of rs value) as ->
        by (unfold group_of; simpl; by rewrite Hc).
      rewrite (int32_Some (vr_end r - vr_start r))
        by (unfold int32_min, int32_max; lia).
      cbn [mbind option_bind].
      rewrite (int32_Some (vr_end r - vr_start r + 1))
        by (unfold int32_min, int32_max; lia).
      cbn [mbind option_bind].
      rewrite int32_Some by (unfold int32_min, int32_max; lia).
      cbn [mbind option_bind].
      specialize (IH (front ++ encode_value_range r) bound Hok
                    (value_ranges_ascending_tail _ _ Hasc) Hw2).
      rewrite length_app, Hlr in IH. rewrite <- !app_assoc in IH.
      replace (Z.of_nat (length front) + 2 +
                 (vr_end r - vr_start r + 1))
        with (Z.of_nat (length front + (2 + length (vr_groups r))))
        by lia.
      apply IH; [lia|done|done].
Qed.
End DenseScan.

(** X7.  The dense path of [findPropertyValueNameGroup]: on a
    well-formed dense value map that lies at a nonzero index of the
    table, the result is the name-group offset the map holds for the
    value, and 0 for a value no range covers. *)
Theorem findPropertyValueNameGroup_dense
    (front tail : list Z) (trieOffset : Z) (rs : list value_range)
    (value : Z) :
  front ≠ [] →
  well_formed_dense (Z.of_nat (length front)) trieOffset rs = true →
  PropNameData.findPropertyValueNameGroup
    (front ++ dense_value_map trieOffset rs ++ tail)
    (Z.of_nat (length front)) value =
  Some (default 0 (group_of rs value)).
Proof.
  intros Hfront Hwf. unfold well_formed_dense in Hwf.
  apply andb_prop in Hwf as [Hwf Hmax%Z.leb_le].
  apply andb_prop in Hwf as [Hwf Hend].
  apply andb_prop in Hwf as [Hwf Hw].
  apply andb_prop in Hwf as [Hwf Hasc].
  apply andb_prop in Hwf as [Hn%Z.ltb_lt Hok%forallb_Forall].
  apply forallb_Forall in Hend.
  assert (length front ≠ 0)%nat as Hlen by (by destruct front).
  unfold PropNameData.findPropertyValueNameGroup.
  destruct (Z.eqb_spec (Z.of_nat (length front)) 0) as [|_]; [lia|].
  cbn [dense_value_map length] in Hmax, Hend.
  rewrite (int32_Some (Z.of_nat (length front) + 1))
    by (unfold int32_min; lia).
  cbn [mbind option_bind].
  pose proof Hw as Hw'. cbn [dense_value_map forallb] in Hw'.
  apply andb_prop in Hw' as [Ht Hw'].
  apply andb_prop in Hw' as [Hc Hw'].
  rewrite (word_at front (dense_value_map trieOffset rs) tail 1
             (Z.of_nat (length rs)) _ eq_refl Hc) by lia.
  cbn [mbind option_bind].
  rewrite (int32_Some (Z.of_nat (length front) + 1 + 1))
    by (unfold int32_min; lia).
  cbn [mbind option_bind].
  destruct (Z.ltb_spec (Z.of_nat (length rs)) 16) as [_|]; [|lia].
  rewrite Nat2Z.id.
  pose proof (ranges_loop_dense value tail rs
                (front ++ [trieOffset; Z.of_nat (length rs)])
                (Z.of_nat (length front) +
                   Z.of_nat (S (S (length (flat_map encode_value_range rs)))))
                Hok Hasc Hw') as Hloop.
  rewrite length_app in Hloop. cbn [length] in Hloop.
  rewrite <- app_assoc in Hloop. cbn [app] in Hloop.
  replace (Z.of_nat (length front) + 1 + 1)
    with (Z.of_nat (length front + 2)) by lia.
  apply Hloop; [lia| |lia].
  eapply Forall_impl; [exact Hend|]. simpl. intros r Hr.
  by apply Z.leb_le in Hr.
Qed.

Lemma sparse_group_above values : ∀ groups value,
  Forall (λ v, value < v) values → sparse_group values groups value = 0.
Proof.
  induction values as [|v values IH]; intros [|g groups] value Hv; try done.
  apply Forall_cons in Hv as [Hlt Hv]. simpl.
  destruct (Z.eqb_spec value v); [lia|]. by apply IH.
Qed.

Lemma strictly_ascending_after values : ∀ v,
  strictly_ascending (v :: values) = true → Forall (λ v', v < v') values.
Proof.
  induction values as [|w values IH]; intros v Hasc; [constructor|].
  cbn [strictly_ascending] in Hasc.
  apply andb_prop in Hasc as [Hvw%Z.ltb_lt Hasc].
  constructor; [done|].
  eapply Forall_impl; [by apply IH|]. simpl. lia.
Qed.

Lemma strictly_ascending_tail v values :
  strictly_ascending (v :: values) = true → strictly_ascending values = true.
Proof.
  destruct values as [|w values]; [done|]. simpl. by intros [_ ?]%andb_prop.
Qed.

Section SparseScan.
Variable value : Z.
Variable front tail : list Z.
Variable trieOffset : Z.
Variable values groups : list Z.

Let table := front ++ sparse_value_map trieOffset values groups ++ tail.
Let valuesStart := Z.of_nat (length front) + 2.
Let nameGroupOffsetsStart := valuesStart + Z.of_nat (length values).

Lemma list_loop_sparse vrest : ∀ vpre gpre grest fuel,
  values = vpre ++ vrest → groups = gpre ++ grest →
  length vpre = length gpre → length groups = length values →
  vrest ≠ [] → strictly_ascending vrest = true →
  forallb is_int32 (values ++ groups) = true →
  2 * nameGroupOffsetsStart ≤ int32_max →
  (length vrest < fuel)%nat →
  PropNameData.list_loop table fuel valuesStart nameGroupOffsetsStart
    (valuesStart + Z.of_nat (length vpre)) value =
  Some (sparse_group vrest grest value).
Proof.
  induction vrest as [|v vrest IH];
    intros vpre gpre grest fuel Hv Hg Hpre Hlen Hne Hasc Hw Hmax Hfuel;
    [done|].
  destruct fuel as [|fuel]; [simpl in Hfuel; lia|].
  assert (length values = (length vpre + S (length vrest))%nat) as Hlv
    by (rewrite Hv, length_app; done).
  assert (length grest = S (length vrest)) as Hlg.
  { rewrite Hg, length_app in Hlen. lia. }
  destruct grest as [|g grest]; [done|].
  assert ((values ++ groups) !! length vpre = Some v) as Hvk.
  { rewrite lookup_app_l by lia. rewrite Hv.
    by rewrite list_lookup_middle. }
  assert ((values ++ groups) !! (length values + length gpre)%nat = Some g)
    as Hgk.
  { rewrite lookup_app_r by lia.
    replace (length values + length gpre - length values)%nat
      with (length gpre) by lia.
    rewrite Hg. by rewrite list_lookup_middle. }
  unfold nameGroupOffsetsStart, valuesStart in *.
  assert (PropNameData.word table
            (Z.of_nat (length front) + 2 + Z.of_nat (length vpre)) = Some v)
    as Hwv.
  { apply (word_at front (sparse_value_map trieOffset values groups) tail
             (2 + length vpre)); [done| |lia|lia].
    by apply (forallb_lookup _ _ _ _ Hw Hvk). }
  cbn [PropNameData.list_loop]. rewrite Hwv. cbn [mbind option_bind].
  cbn [sparse_group].
  destruct (Z.ltb_spec value v) as [Hlt|Hge].
  - destruct (Z.eqb_spec value v); [lia|].
    rewrite sparse_group_above; [done|].
    eapply Forall_impl; [by apply strictly_ascending_after|].
    simpl. lia.
  - destruct (Z.eqb_spec value v) as [->|Hneq].
    + rewrite int32_Some by (unfold int32_min; lia).
      cbn [mbind option_bind].
      rewrite int32_Some by (unfold int32_min; lia).
      cbn [mbind option_bind].
      apply (word_at front (sparse_value_map trieOffset values groups) tail
               (2 + (length values + length gpre))); [done| |lia|lia].
      by apply (forallb_lookup _ _ _ _ Hw Hgk).
    + rewrite int32_Some by (unfold int32_min; lia).
      cbn [mbind option_bind].
      destruct vrest as [|v' vrest].
      * destruct (Z.ltb_spec
                    (Z.of_nat (length front) + 2 + Z.of_nat (length vpre) + 1)
                    (Z.of_nat (length front) + 2 + Z.of_nat (length values)));
          [simpl in Hlv; lia|done].
      * destruct (Z.ltb_spec
                    (Z.of_nat (length front) + 2 + Z.of_nat (length vpre) + 1)
                    (Z.of_nat (length front) + 2 + Z.of_nat (length values)));
          [|simpl in Hlv; lia].
        specialize (IH (vpre ++ [v]) (gpre ++ [g]) grest fuel).
        rewrite length_app in IH. cbn [length] in IH.
        replace (Z.of_nat (length front) + 2 + Z.of_nat (length vpre) + 1)
          with (Z.of_nat (length front) + 2 + Z.of_nat (length vpre + 1))
          by lia.
        apply IH; rewrite <- ?app_assoc; try done.
        -- rewrite length_app. simpl. lia.
        -- by eapply strictly_ascending_tail.
        -- simpl in Hfuel. simpl. lia.
Qed.
End SparseScan.

(** X8.  The sparse path of [findPropertyValueNameGroup]: on a
    well-formed sparse value map (count word 0x10 plus the count of
    values, at least one value, the values strictly ascending) that lies
    at a nonzero index of the table, the result is the name-group offset
    listed for the value, and 0 for a value that is not listed. *)
Theorem findPropertyValueNameGroup_sparse
    (front tail : list Z) (trieOffset : Z) (values groups : list Z)
    (value : Z) :
  front ≠ [] →
  well_formed_sparse (Z.of_nat (length front)) trieOffset values groups
    = true →
  PropNameData.findPropertyValueNameGroup
    (front ++ sparse_value_map trieOffset values groups ++ tail)
    (Z.of_nat (length front)) value =
  Some (sparse_group values groups value).
Proof.
  intros Hfront Hwf. unfold well_formed_sparse in Hwf.
  apply andb_prop in Hwf as [Hwf Hmax%Z.leb_le].
  apply andb_prop in Hwf as [Hwf Hw].
  apply andb_prop in Hwf as [Hwf Hasc].
  apply andb_prop in Hwf as [Hn%Z.leb_le Hlen%Z.eqb_eq].
  assert (length front ≠ 0)%nat as Hlf by (by destruct front).
  unfold PropNameData.findPropertyValueNameGroup.
  destruct (Z.eqb_spec (Z.of_nat (length front)) 0) as [|_]; [lia|].
  cbn [sparse_value_map length] in Hmax. rewrite length_app in Hmax.
  rewrite (int32_Some (Z.of_nat (length front) + 1))
    by (unfold int32_min; lia).
  cbn [mbind option_bind].
  pose proof Hw as Hw'. cbn [sparse_value_map forallb] in Hw'.
  apply andb_prop in Hw' as [Ht Hw'].
  apply andb_prop in Hw' as [Hc Hw'].
  rewrite (word_at front (sparse_value_map trieOffset values groups) tail 1
             (16 + Z.of_nat (length values)) _ eq_refl Hc) by lia.
  cbn [mbind option_bind].
  rewrite (int32_Some (Z.of_nat (length front) + 1 + 1))
    by (unfold int32_min; lia).
  cbn [mbind option_bind].
  destruct (Z.ltb_spec (16 + Z.of_nat (length values)) 16) as [|_]; [lia|].
  rewrite int32_Some by (unfold int32_min; lia).
  cbn [mbind option_bind].
  rewrite int32_Some by (unfold int32_min; lia).
  cbn [mbind option_bind].
  pose proof (list_loop_sparse value front tail trieOffset values groups
                values [] [] groups
                (S (Z.to_nat (16 + Z.of_nat (length values) - 16)))
                eq_refl eq_refl eq_refl) as Hloop.
  cbn [length] in Hloop. rewrite Z.add_0_r in Hloop.
  replace (Z.of_nat (length front) + 1 + 1)
    with (Z.of_nat (length front) + 2) by lia.
  replace (Z.of_nat (length front) + 2 + (16 + Z.of_nat (length values)) - 16)
    with (Z.of_nat (length front) + 2 + Z.of_nat (length values)) by lia.
  apply Hloop; try done; try lia.
  by destruct values.
Qed.

Lemma findPropertyValueNameGroup_dense_witness :
  let front := [0; 0; 0] in
  let rs := [ {| vr_start := 0; vr_end := 1; vr_groups := [11; 12] |};
              {| vr_start := 5; vr_end := 5; vr_groups := [13] |} ] in
  front ≠ [] ∧
  well_formed_dense (Z.of_nat (length front)) 64 rs = true ∧
  PropNameData.findPropertyValueNameGroup
    (front ++ dense_value_map 64 rs) 3 5 = Some 13 ∧
  PropNameData.findPropertyValueNameGroup
    (front ++ dense_value_map 64 rs) 3 3 = Some 0.
Proof.
  intros front rs.
  assert (front ≠ []) as Hf by discriminate.
  assert (well_formed_dense (Z.of_nat (length front)) 64 rs = true) as Hwf
    by reflexivity.
  split_and!; [exact Hf|exact Hwf| |].
  - rewrite <- (app_nil_r (dense_value_map 64 rs)).
    exact (findPropertyValueNameGroup_dense front [] 64 rs 5 Hf Hwf).
  - rewrite <- (app_nil_r (dense_value_map 64 rs)).
    exact (findPropertyValueNameGroup_dense front [] 64 rs 3 Hf Hwf).
Defined.

Lemma findPropertyValueNameGroup_sparse_witness :
  let front := [0; 0; 0] in
  front ≠ [] ∧
  well_formed_sparse (Z.of_nat (length front)) 64 [1; 4; 16] [21; 22; 23]
    = true ∧
  PropNameData.findPropertyValueNameGroup
    (front ++ sparse_value_map 64 [1; 4; 16] [21; 22; 23]) 3 16 = Some 23 ∧
  PropNameData.findPropertyValueNameGroup
    (front ++ sparse_value_map 64 [1; 4; 16] [21; 22; 23]) 3 8 = Some 0.
Proof.
  intros front.
  assert (front ≠ []) as Hf by discriminate.
  assert (well_formed_sparse (Z.of_nat (length front)) 64
            [1; 4; 16] [21; 22; 23] = true) as Hwf by reflexivity.
  split_and!; [exact Hf|exact Hwf| |].
  - rewrite <- (app_nil_r (sparse_value_map 64 _ _)).
    exact (findPropertyValueNameGroup_sparse front [] 64 _ _ 16 Hf Hwf).
  - rewrite <- (app_nil_r (sparse_value_map 64 _ _)).
    exact (findPropertyValueNameGroup_sparse front [] 64 _ _ 8 Hf Hwf).
Defined.

(** ** PropertyRangeIndex: the place of every record *)

Lemma record_index_hit rs : ∀ base property,
  Forall (λ r, range_ok r = true) rs →
  record_index rs base property ≠ 0 →
  Exists (λ r, covers r property = true) rs ∧
  base + 2 ≤ record_index rs base property ∧
  record_index rs base property + 2
    ≤ base + Z.of_nat (length (flat_map encode_range rs)).
Proof.
  induction rs as [|r rs IH]; intros base property Hok Hidx; [done|].
  apply Forall_cons in Hok as [Hr Hok].
  apply andb_prop in Hr as [Hse%Z.leb_le Hlen%Z.eqb_eq].
  cbn [record_index flat_map] in *.
  rewrite length_app, length_encode_range.
  destruct (covers r property) eqn:Hc.
  - apply andb_prop in Hc as Hc'.
    destruct Hc' as [Hps%Z.leb_le Hpe%Z.leb_le].
    split; [by left|]. lia.
  - destruct (IH _ _ Hok Hidx) as (Hex & Hlo & Hhi).
    split; [by right|]. lia.
Qed.

Lemma record_index_none rs : ∀ base property,
  Forall (λ r, covers r property = false) rs →
  record_index rs base property = 0.
Proof.
  induction rs as [|r rs IH]; intros base property Hc; [done|].
  apply Forall_cons in Hc as [Hr Hc]. simpl. rewrite Hr. by apply IH.
Qed.

Lemma record_index_ascends rs : ∀ base p q,
  Forall (λ r, range_ok r = true) rs → ascending rs = true →
  p < q →
  record_index rs base p ≠ 0 → record_index rs base q ≠ 0 →
  record_index rs base p + 2 ≤ record_index rs base q.
Proof.
  induction rs as [|r rs IH]; intros base p q Hok Hasc Hpq Hp Hq; [done|].
  pose proof Hok as Hok'. apply Forall_cons in Hok' as [Hr Hrs].
  apply andb_prop in Hr as [Hse%Z.leb_le Hlen%Z.eqb_eq].
  cbn [record_index] in *.
  destruct (covers r p) eqn:Hcp.
  - apply andb_prop in Hcp as [Hps%Z.leb_le Hpe%Z.leb_le].
    destruct (covers r q) eqn:Hcq; [lia|].
    destruct (record_index_hit _ _ _ Hrs Hq) as (_ & Hlo & _). lia.
  - destruct (record_index_hit _ _ _ Hrs Hp) as (Hex & _ & _).
    apply Exists_exists in Hex as (r' & Hin & Hc').
    pose proof (ascending_after rs r Hrs Hasc) as Hafter.
    rewrite Forall_forall in Hafter. specialize (Hafter r' Hin).
    apply andb_prop in Hc' as [Hps%Z.leb_le Hpe%Z.leb_le].
    assert (covers r q = false) as Hcq.
    { unfold covers. destruct (Z.leb_spec q (pr_end r)); [lia|].
      by rewrite andb_false_r. }
    rewrite Hcq in Hq |- *.
    apply IH; [done|by eapply ascending_tail|done..].
Qed.

Section RangeScanIndex.
Variable property : Z.
Variable tail : list Z.

(** The scan over a well-formed run of ranges returns [record_index]. *)
Lemma findProperty_loop_index rs : ∀ front,
  Forall (λ r, range_ok r = true) rs → ascending rs = true →
  forallb is_int32 (flat_map encode_range rs) = true →
  Z.of_nat (length front + length (flat_map encode_range rs)) ≤ int32_max →
  PropNameData.findProperty_loop
    (front ++ flat_map encode_range rs ++ tail)
    (length rs) (Z.of_nat (length front)) property =
  Some (record_index rs (Z.of_nat (length front)) property).
Proof.
  induction rs as [|r rs IH]; intros front Hok Hasc Hw Hmax; [done|].
  apply Forall_cons in Hok as [Hr Hok].
  cbn [flat_map record_index] in *. rewrite length_app in Hmax.
  apply forallb_app_inv in Hw as [Hw1 Hw2].
  rewrite <- (app_assoc (encode_range r)).
  apply andb_prop in Hr as Hr'.
  destruct Hr' as [Hse%Z.leb_le Hlen%Z.eqb_eq].
  destruct (covers r property) eqn:Hc.
  - apply andb_prop in Hc as Hc'.
    destruct Hc' as [Hps%Z.leb_le Hpe%Z.leb_le].
    destruct (pr_records r !! Z.to_nat (property - pr_start r))
      as [[g v]|] eqn:Hrec; [|apply lookup_ge_None in Hrec; lia].
    destruct (findProperty_loop_hit property front r
                (flat_map encode_range rs ++ tail) (length rs) g v
                Hr Hc Hrec Hw1 ltac:(lia)) as (Hloop & _).
    cbn [length]. rewrite Hloop. f_equal. lia.
  - destruct (Z.ltb_spec property (pr_start r)) as [Hlt|Hge].
    + rewrite record_index_none.
      * simpl in Hw1. apply andb_prop in Hw1 as [Hs Hw1].
        apply andb_prop in Hw1 as [He _].
        rewrite length_encode_range in Hmax.
        apply (findProperty_loop_stop_eq property front
                 (pr_start r) (pr_end r)
                 (encode_records (pr_records r) ++
                    flat_map encode_range rs ++ tail)); try done.
        lia.
      * eapply Forall_impl; [by apply (ascending_after rs r)|].
        intros q Hq. simpl in Hq. unfold covers.
        destruct (Z.leb_spec (pr_start q) property); [lia|done].
    + assert (pr_end r < property) as Hgt.
      { unfold covers in Hc.
        destruct (Z.leb_spec (pr_start r) property); [|lia].
        destruct (Z.leb_spec property (pr_end r)); [done|lia]. }
      cbn [length].
      rewrite findProperty_loop_skip by (try done; lia).
      specialize (IH (front ++ encode_range r) Hok (ascending_tail _ _ Hasc)
                    Hw2).
      rewrite length_app in IH. rewrite <- !app_assoc in IH.
      rewrite IH by lia. f_equal. f_equal.
      rewrite length_encode_range. lia.
Qed.
End RangeScanIndex.

Lemma findProperty_index rs rest property :
  well_formed_ranges rs = true →
  PropNameData.findProperty (encode_ranges rs ++ rest) property =
    Some (record_index rs 1 property).
Proof.
  unfold well_formed_ranges. intros Hwf.
  apply andb_prop in Hwf as [Hwf Hmax%Z.leb_le].
  apply andb_prop in Hwf as [Hwf Hw].
  apply andb_prop in Hwf as [Hok%forallb_Forall Hasc].
  unfold encode_ranges in *. cbn [forallb length] in Hw, Hmax.
  apply andb_prop in Hw as [Hn Hw].
  rewrite <- app_comm_cons. rewrite findProperty_unfold by done.
  apply (findProperty_loop_index property rest rs
           [Z.of_nat (length rs)]); try done; simpl; lia.
Qed.

(** X9.  On a well-formed property range table [findProperty] returns 0
    exactly for the property codes no range covers (below the first
    range, above the last, or in a gap between two ranges); for a
    covered code it returns the index, inside region 1, of the two words
    of the code's record. *)
Theorem findProperty_finds_record
    (rs : list prop_range) (rest : list Z) (property : Z) :
  well_formed_ranges rs = true →
  ∃ idx,
    PropNameData.findProperty (encode_ranges rs ++ rest) property
      = Some idx ∧
    (idx = 0 ↔ record_of rs property = None) ∧
    (∀ g v, record_of rs property = Some (g, v) →
       3 ≤ idx ∧ idx + 1 < Z.of_nat (length (encode_ranges rs)) ∧
       PropNameData.word (encode_ranges rs ++ rest) idx = Some g ∧
       PropNameData.word (encode_ranges rs ++ rest) (idx + 1) = Some v).
Proof.
  intros Hwf.
  pose proof (findProperty_record rs rest property Hwf) as Hrec.
  pose proof (findProperty_index rs rest property Hwf) as Hidx.
  cbv zeta in Hrec.
  assert (Forall (λ r, range_ok r = true) rs) as Hok.
  { unfold well_formed_ranges in Hwf.
    apply andb_prop in Hwf as [Hwf _]. apply andb_prop in Hwf as [Hwf _].
    by apply andb_prop in Hwf as [Hok%forallb_Forall _]. }
  exists (record_index rs 1 property). split; [done|].
  destruct (record_of rs property) as [[g v]|].
  - destruct Hrec as (idx & Hf & Hnz & _ & Hg & Hv).
    rewrite Hidx in Hf. injection Hf as <-.
    split; [done|]. intros g' v' [= <- <-].
    destruct (record_index_hit rs 1 property Hok Hnz) as (_ & Hlo & Hhi).
    unfold encode_ranges. cbn [length]. split_and!; [lia|lia|done|done].
  - rewrite Hidx in Hrec. injection Hrec as ->. done.
Qed.

(** X10.  On a well-formed property range table the records of two
    different covered property codes never share a word: the index
    [findProperty] returns for the smaller code lies at least 2 below
    the index it returns for the larger one. *)
Theorem findProperty_records_apart
    (rs : list prop_range) (rest : list Z) (p q ip iq : Z) :
  well_formed_ranges rs = true → p < q →
  PropNameData.findProperty (encode_ranges rs ++ rest) p = Some ip →
  PropNameData.findProperty (encode_ranges rs ++ rest) q = Some iq →
  ip ≠ 0 → iq ≠ 0 →
  ip + 2 ≤ iq.
Proof.
  intros Hwf Hpq Hp Hq Hip Hiq.
  rewrite (findProperty_index rs rest p Hwf) in Hp.
  rewrite (findProperty_index rs rest q Hwf) in Hq.
  injection Hp as <-. injection Hq as <-.
  unfold well_formed_ranges in Hwf.
  apply andb_prop in Hwf as [Hwf _]. apply andb_prop in Hwf as [Hwf _].
  apply andb_prop in Hwf as [Hok%forallb_Forall Hasc].
  by apply record_index_ascends.
Qed.

Lemma findProperty_finds_record_witness :
  well_formed_ranges two_ranges = true ∧
  PropNameData.findProperty (encode_ranges two_ranges) 5 = Some 0 ∧
  PropNameData.findProperty (encode_ranges two_ranges) 7 = Some 9.
Proof.
  assert (well_formed_ranges two_ranges = true) as Hwf by reflexivity.
  split; [exact Hwf|].
  rewrite <- (app_nil_r (encode_ranges two_ranges)).
  destruct (findProperty_finds_record two_ranges [] 5 Hwf)
    as (i5 & H5 & Hz5 & _).
  destruct (findProperty_finds_record two_ranges [] 7 Hwf)
    as (i7 & H7 & _ & Hr7).
  split.
  - rewrite H5. f_equal. by apply Hz5.
  - exact (findProperty_index two_ranges [] 7 Hwf).
Defined.

Lemma findProperty_records_apart_witness :
  well_formed_ranges two_ranges = true ∧ 3 < 7 ∧
  PropNameData.findProperty (encode_ranges two_ranges ++ []) 3 = Some 5 ∧
  PropNameData.findProperty (encode_ranges two_ranges ++ []) 7 = Some 9 ∧
  5 + 2 ≤ 9.
Proof.
  assert (well_formed_ranges two_ranges = true) as Hwf by reflexivity.
  assert (3 < 7) as Hlt by lia.
  assert (PropNameData.findProperty (encode_ranges two_ranges ++ []) 3
            = Some 5) as H3 by reflexivity.
  assert (PropNameData.findProperty (encode_ranges two_ranges ++ []) 7
            = Some 9) as H7 by reflexivity.
  split_and!; [exact Hwf|exact Hlt|exact H3|exact H7|].
  refine (findProperty_records_apart two_ranges [] 3 7 5 9
            Hwf Hlt H3 H7 _ _); discriminate.
Defined.

(** ** PropNameFacade: name lookups on a well-formed table *)

Section FacadeNames.
Context `{Platform}.

(** X11.  The not-found results of the two name lookups on a well-formed
    table, for every name choice: [getPropertyName] returns NULL for a
    property code no range covers; [getPropertyValueName] returns NULL
    for such a code, for a property whose value-map offset is 0, and for
    a value for which the value map yields the offset 0. *)
Theorem name_lookups_not_found
    (rs : list prop_range) (rest : list Z) (nameGroups : list ascii)
    (property value nameChoice : Z) :
  well_formed_ranges rs = true →
  (record_of rs property = None →
   PropNameData.getPropertyName (encode_ranges rs ++ rest) nameGroups
     property nameChoice = Some NULL ∧
   PropNameData.getPropertyValueName (encode_ranges rs ++ rest) nameGroups
     property value nameChoice = Some NULL) ∧
  (∀ g, record_of rs property = Some (g, 0) →
   PropNameData.getPropertyValueName (encode_ranges rs ++ rest) nameGroups
     property value nameChoice = Some NULL) ∧
  (∀ g valueMap, record_of rs property = Some (g, valueMap) →
   PropNameData.findPropertyValueNameGroup (encode_ranges rs ++ rest)
     valueMap value = Some 0 →
   PropNameData.getPropertyValueName (encode_ranges rs ++ rest) nameGroups
     property value nameChoice = Some NULL).
Proof.
  intros Hwf.
  pose proof (findProperty_record rs rest property Hwf) as Hfind.
  cbv zeta in Hfind.
  unfold PropNameData.getPropertyName, PropNameData.getPropertyValueName.
  split_and!.
  - intros Hrec. rewrite Hrec in Hfind. by rewrite Hfind.
  - intros g Hrec. rewrite Hrec in Hfind.
    destruct Hfind as (idx & -> & Hidx & Hmax & Hg & Hv).
    cbn [mbind option_bind]. apply Z.eqb_neq in Hidx as ->.
    pose proof (word_inv _ _ _ Hg) as [Hi _].
    rewrite (int32_Some (idx + 1)) by (unfold int32_min; lia).
    cbn [mbind option_bind]. rewrite Hv. done.
  - intros g valueMap Hrec Hgroup. rewrite Hrec in Hfind.
    destruct Hfind as (idx & -> & Hidx & Hmax & Hg & Hv).
    cbn [mbind option_bind]. apply Z.eqb_neq in Hidx as ->.
    pose proof (word_inv _ _ _ Hg) as [Hi _].
    rewrite (int32_Some (idx + 1)) by (unfold int32_min; lia).
    cbn [mbind option_bind]. rewrite Hv. cbn [mbind option_bind].
    rewrite Hgroup. done.
Qed.

Lemma nameGroups_at_middle (front block tail : list ascii) :
  PropNameData.nameGroups_at (front ++ block ++ tail)
    (Z.of_nat (length front)) = Some (block ++ tail).
Proof.
  unfold PropNameData.nameGroups_at. rewrite !length_app.
  assert ((0 <=? Z.of_nat (length front)) &&
          (Z.of_nat (length front) <=?
             Z.of_nat (length front + (length block + length tail))) = true)
    as -> by zbool.
  rewrite Nat2Z.id. by rewrite drop_app_length.
Qed.

(** X12.  [getPropertyName] end to end: on a well-formed table, for a
    covered property code whose record points at an encoded name group of
    region 3, name choice [i] returns the [i]-th name of the group
    (index 0 only when the short name is not empty). *)
Theorem getPropertyName_decodes
    (rs : list prop_range) (rest : list Z)
    (front tail : list ascii) (names : list (list ascii))
    (property valueMap i : Z) (name : list ascii) :
  well_formed_ranges rs = true →
  record_of rs property = Some (Z.of_nat (length front), valueMap) →
  names_ok names → 0 ≤ i →
  names !! Z.to_nat i = Some name → (i = 0 → name ≠ []) →
  returns_name
    (PropNameData.getPropertyName (encode_ranges rs ++ rest)
       (front ++ encode_group names ++ tail) property i) name.
Proof.
  intros Hwf Hrec Hok Hi Hname Hshort.
  pose proof (findProperty_record rs rest property Hwf) as Hfind.
  cbv zeta in Hfind. rewrite Hrec in Hfind.
  destruct Hfind as (idx & Hf & Hidx & Hmax & Hg & Hv).
  unfold PropNameData.getPropertyName. rewrite Hf.
  cbn [mbind option_bind]. apply Z.eqb_neq in Hidx as ->.
  rewrite Hg. cbn [mbind option_bind].
  rewrite nameGroups_at_middle. cbn [mbind option_bind].
  exists (encode_names (drop (Z.to_nat i) names) ++ tail). split.
  - by apply (getName_encoded_pointer names tail name).
  - by apply c_str_encoded_drop.
Qed.

(** X13.  [getPropertyValueName] end to end: on a well-formed table, for
    a covered property code and a value for which the property's value
    map yields a nonzero offset that points at an encoded name group,
    name choice [i] returns the [i]-th name of that group. *)
Theorem getPropertyValueName_decodes
    (rs : list prop_range) (rest : list Z)
    (front tail : list ascii) (names : list (list ascii))
    (property value g valueMap i : Z) (name : list ascii) :
  well_formed_ranges rs = true →
  record_of rs property = Some (g, valueMap) →
  PropNameData.findPropertyValueNameGroup (encode_ranges rs ++ rest)
    valueMap value = Some (Z.of_nat (length front)) →
  front ≠ [] →
  names_ok names → 0 ≤ i →
  names !! Z.to_nat i = Some name → (i = 0 → name ≠ []) →
  returns_name
    (PropNameData.getPropertyValueName (encode_ranges rs ++ rest)
       (front ++ encode_group names ++ tail) property value i) name.
Proof.
  intros Hwf Hrec Hgroup Hfront Hok Hi Hname Hshort.
  pose proof (findProperty_record rs rest property Hwf) as Hfind.
  cbv zeta in Hfind. rewrite Hrec in Hfind.
  destruct Hfind as (idx & Hf & Hidx & Hmax & Hg & Hv).
  unfold PropNameData.getPropertyValueName. rewrite Hf.
  cbn [mbind option_bind]. apply Z.eqb_neq in Hidx as ->.
  pose proof (word_inv _ _ _ Hg) as [Hi0 _].
  rewrite (int32_Some (idx + 1)) by (unfold int32_min; lia).
  cbn [mbind option_bind]. rewrite Hv. cbn [mbind option_bind].
  rewrite Hgroup. cbn [mbind option_bind].
  assert ((Z.of_nat (length front) =? 0) = false) as ->.
  { apply Z.eqb_neq. destruct front; [done|simpl; lia]. }
  rewrite nameGroups_at_middle. cbn [mbind option_bind].
  exists (encode_names (drop (Z.to_nat i) names) ++ tail). split.
  - by apply (getName_encoded_pointer names tail name).
  - by apply c_str_encoded_drop.
Qed.
End FacadeNames.

(** ** AliasAutomatonAdapter: the lookup is incremental *)

Section AdapterIncremental.
Context `{Platform}.
Context {T : Type} `{ByteTrie T}.

Lemma significant_app a : ∀ rest,
  Forall (λ c, code c ≠ 0) a →
  significant (a ++ rest) = significant a ++ significant rest.
Proof.
  induction a as [|c a IH]; intros rest Ha; [done|].
  apply Forall_cons in Ha as [Hc Ha]. cbn [app significant].
  apply Z.eqb_neq in Hc as ->. rewrite IH by done.
  by destruct (is_delimiter (code c)).
Qed.

Lemma feed_app (key1 : list Z) : ∀ (trie : T) key2,
  feed trie (key1 ++ key2) =
    if (consume trie key1).1 then feed (consume trie key1).2 key2
    else (false, (consume trie key1).2).
Proof.
  induction key1 as [|b key1 IH]; intros trie key2; [done|].
  cbn [app feed consume].
  destruct (next trie b) as [[] trie']; [apply IH|done].
Qed.

(** X14.  [containsName] works through the alias from left to right and
    gives up at the first byte the automaton refuses: on an alias that
    starts with the NUL-free part [a], the result is the result on the
    rest of the alias from the position [a] leads to, and when the
    automaton refuses a byte of [a] the result is false with the
    automaton left where it refused, whatever follows [a]. *)
Theorem containsName_incremental (trie : T) (a rest : list ascii) :
  Forall (λ c, code c ≠ 0) a →
  PropNameData.containsName trie (Some (a ++ rest)) =
    if (consume trie (significant a)).1
    then PropNameData.containsName
           (consume trie (significant a)).2 (Some rest)
    else (false, (consume trie (significant a)).2).
Proof.
  intros Ha. cbn [PropNameData.containsName].
  rewrite !containsName_loop_feed, significant_app by done.
  apply feed_app.
Qed.
End AdapterIncremental.

Lemma name_lookups_not_found_witness :
  well_formed_ranges scenario_ranges = true ∧
  record_of scenario_ranges 3 = None ∧
  @PropNameData.getPropertyName signed_chars
    scenario_valueMaps scenario_nameGroups 3 0 = Some NULL ∧
  @PropNameData.getPropertyValueName signed_chars
    scenario_valueMaps scenario_nameGroups 0 2 0 = Some NULL.
Proof.
  assert (well_formed_ranges scenario_ranges = true) as Hwf by reflexivity.
  assert (record_of scenario_ranges 3 = None) as Hrec by reflexivity.
  split_and!; [exact Hwf|exact Hrec| |].
  - exact (proj1 (proj1 (@name_lookups_not_found signed_chars
             scenario_ranges [64; 1; 0; 1; 1; 1] scenario_nameGroups
             3 0 0 Hwf) Hrec)).
  - exact (proj2 (proj2 (@name_lookups_not_found signed_chars
             scenario_ranges [64; 1; 0; 1; 1; 1] scenario_nameGroups
             0 2 0 Hwf)) 13 9 eq_refl eq_refl).
Defined.

Lemma getPropertyName_decodes_witness :
  let front := List.repeat zero 13 in
  well_formed_ranges scenario_ranges = true ∧
  record_of scenario_ranges 1 = Some (Z.of_nat (length front), 9) ∧
  names_ok [str "P"; str "Prop"] ∧
  @returns_name signed_chars
    (@PropNameData.getPropertyName signed_chars
       (encode_ranges scenario_ranges ++ [])
       (front ++ encode_group [str "P"; str "Prop"] ++ []) 1 1)
    (str "Prop").
Proof.
  intros front.
  assert (well_formed_ranges scenario_ranges = true) as Hwf by reflexivity.
  assert (record_of scenario_ranges 1 = Some (Z.of_nat (length front), 9))
    as Hrec by reflexivity.
  assert (names_ok [str "P"; str "Prop"]) as Hok.
  { split; [simpl; lia|]. repeat constructor; discriminate. }
  split_and!; [exact Hwf|exact Hrec|exact Hok|].
  refine (@getPropertyName_decodes signed_chars scenario_ranges []
            front [] _ 1 9 1 _ Hwf Hrec Hok _ eq_refl _);
    [lia|discriminate].
Defined.

Lemma getPropertyValueName_decodes_witness :
  let front := [zero] in
  let names := [str "Foo"; str "Foobar"] in
  well_formed_ranges scenario_ranges = true ∧
  record_of scenario_ranges 0 = Some (13, 9) ∧
  PropNameData.findPropertyValueNameGroup
    (encode_ranges scenario_ranges ++ [64; 1; 0; 1; 1; 1]) 9 1
    = Some (Z.of_nat (length front)) ∧
  front ≠ [] ∧ names_ok names ∧
  @returns_name signed_chars
    (@PropNameData.getPropertyValueName signed_chars
       (encode_ranges scenario_ranges ++ [64; 1; 0; 1; 1; 1])
       (front ++ encode_group names ++ []) 0 1 1)
    (str "Foobar").
Proof.
  intros front names.
  assert (well_formed_ranges scenario_ranges = true) as Hwf by reflexivity.
  assert (record_of scenario_ranges 0 = Some (13, 9)) as Hrec by reflexivity.
  assert (PropNameData.findPropertyValueNameGroup
            (encode_ranges scenario_ranges ++ [64; 1; 0; 1; 1; 1]) 9 1
          = Some (Z.of_nat (length front))) as Hg by reflexivity.
  assert (front ≠ []) as Hf by discriminate.
  assert (names_ok names) as Hok.
  { split; [simpl; lia|]. repeat constructor; discriminate. }
  split_and!; [exact Hwf|exact Hrec|exact Hg|exact Hf|exact Hok|].
  refine (@getPropertyValueName_decodes signed_chars scenario_ranges _
            front [] names 0 1 13 9 1 _ Hwf Hrec Hg Hf Hok _ eq_refl _);
    [lia|discriminate].
Defined.

Lemma containsName_incremental_witness :
  let P := signed_chars in
  let A := model_ByteTrie scenario_blob in
  Forall (λ c, code c ≠ 0) (str "Fx") ∧
  @PropNameData.containsName P _ A (trie_at 64) (Some (str "Fx" ++ str "oo"))
    = (false, {| mt_live := false; mt_keys := []; mt_value := 0 |}).
Proof.
  intros P A.
  assert (Forall (λ c, code c ≠ 0) (str "Fx")) as Ha
    by (repeat constructor; discriminate).
  split; [exact Ha|].
  rewrite (@containsName_incremental P _ A (trie_at 64) _ (str "oo") Ha).
  reflexivity.
Defined.

(** ** The EBCDIC comparator *)

Section EbcdicFacts.
Context `{Platform}.
Variable fold : ascii → ascii.
Hypothesis fold_ok : fold_keeps_nonzero fold.

Lemma int_of_char_ebcdic_delimiter c :
  is_ebcdic_delimiter (int_of_char c) = is_ebcdic_delimiter (code c).
Proof. all_chars c. Qed.

Lemma skip_ebcdic_delimiters_spec name : ∀ i j c,
  skip_ebcdic_delimiters name i = (j, c) →
  i + 1 ≤ j ≤ i + ebcdic_delimiter_run name + 1 ∧
  ((code c = 0 ∧ significant_ebcdic fold name = []) ∨
   (code c ≠ 0 ∧ j - i ≤ Z.of_nat (length name) ∧
    significant_ebcdic fold name =
      code (fold c) :: significant_ebcdic fold (drop (Z.to_nat (j - i)) name) ∧
    (fits_ebcdic_packing name = true →
     fits_ebcdic_packing (drop (Z.to_nat (j - i)) name) = true))).
Proof.
  induction name as [|a name IH]; intros i j c Hs; simpl in Hs.
  - inversion Hs; subst. simpl. split; [lia|]. left. done.
  - rewrite int_of_char_ebcdic_delimiter in Hs.
    cbn [significant_ebcdic length ebcdic_delimiter_run fits_ebcdic_packing].
    destruct (is_ebcdic_delimiter (code a)) eqn:Hd.
    + apply IH in Hs as [Hj Hs].
      assert (code a ≠ 0) as Ha
        by (intros E; rewrite E in Hd; discriminate).
      apply Z.eqb_neq in Ha. rewrite Ha.
      replace (Z.to_nat (j - i)) with (S (Z.to_nat (j - (i + 1)))) by lia.
      cbn [drop]. split; [lia|].
      destruct Hs as [Hs|(Hc & Hl & Hs & Hfit)]; [by left|right].
      split_and!; [done|lia|done|].
      intros [_ Hf]%andb_prop. by apply Hfit.
    + inversion Hs; subst. split; [lia|].
      destruct (Z.eqb_spec (code c) 0) as [E|E]; [by left|right].
      replace (i + 1 - i) with 1 by lia.
      split_and!; [done|lia|done|].
      by intros [_ Hf]%andb_prop.
Qed.

Lemma fits_ebcdic_packing_run name :
  fits_ebcdic_packing name = true → ebcdic_delimiter_run name < 8388607.
Proof.
  destruct name as [|c name]; simpl; [lia|].
  destruct (Z.eqb_spec (code c) 0) as [E|_].
  - rewrite E. simpl. lia.
  - intros [Hrun _]%andb_prop. by apply Z.ltb_lt in Hrun.
Qed.

Lemma getEBCDICPropertyNameChar_spec name :
  fits_ebcdic_packing name = true →
  ∃ j ch,
    getEBCDICPropertyNameChar fold name = Some (Z.lor (Z.shiftl j 8) ch) ∧
    1 ≤ j ∧
    ((ch = 0 ∧ significant_ebcdic fold name = []) ∨
     (0 < ch < 256 ∧ j ≤ Z.of_nat (length name) ∧
      significant_ebcdic fold name =
        ch :: significant_ebcdic fold (drop (Z.to_nat j) name) ∧
      fits_ebcdic_packing (drop (Z.to_nat j) name) = true)).
Proof.
  intros Hfit. unfold getEBCDICPropertyNameChar.
  destruct (skip_ebcdic_delimiters name 0) as [j c] eqn:Hs.
  apply skip_ebcdic_delimiters_spec in Hs as [Hj Hs].
  pose proof (fits_ebcdic_packing_run _ Hfit) as Hrun.
  rewrite (int32_Some j) by (unfold int32_min, int32_max; lia).
  cbn [mbind option_bind].
  rewrite wrap32_shiftl, packed_advance_small by lia.
  rewrite int_of_char_is_zero.
  replace (j - 0) with j in Hs by lia.
  destruct Hs as [[Hc Hs]|(Hc & Hl & Hs & Hdrop)].
  - apply Z.eqb_eq in Hc as Hc'. rewrite Hc'. simpl.
    exists j, 0. rewrite Z.lor_0_r. split_and!; [done|lia|by left].
  - apply Z.eqb_neq in Hc as Hc'. rewrite Hc'. simpl.
    exists j, (code (fold c)).
    pose proof (code_range (fold c)). pose proof (fold_ok c Hc).
    split_and!; [done|lia|right].
    split_and!; [lia|lia|done|done|by apply Hdrop].
Qed.

Lemma significant_ebcdic_positive s :
  Forall (λ ch, 0 < ch < 256) (significant_ebcdic fold s).
Proof.
  induction s as [|c s IH]; simpl; [constructor|].
  destruct (Z.eqb_spec (code c) 0) as [|Hc]; [constructor|].
  destruct (is_ebcdic_delimiter (code c)); [done|].
  pose proof (code_range (fold c)). pose proof (fold_ok c Hc).
  constructor; [lia|done].
Qed.

Lemma compare_ebcdic_loop_spec fuel : ∀ name1 name2,
  fits_ebcdic_packing name1 = true → fits_ebcdic_packing name2 = true →
  (length name1 < fuel)%nat →
  compare_ebcdic_loop fold fuel name1 name2 =
    Some (lex_compare (significant_ebcdic fold name1)
                      (significant_ebcdic fold name2)).
Proof.
  induction fuel as [|fuel IH]; intros name1 name2 Hf1 Hf2 Hlen; [lia|].
  cbn [compare_ebcdic_loop].
  destruct (getEBCDICPropertyNameChar_spec name1 Hf1)
    as (j1 & ch1 & -> & Hj1 & Hs1).
  destruct (getEBCDICPropertyNameChar_spec name2 Hf2)
    as (j2 & ch2 & -> & Hj2 & Hs2).
  cbn [mbind option_bind].
  assert (0 ≤ ch1 < 256) as Hr1 by (destruct Hs1 as [[-> _]|[? _]]; lia).
  assert (0 ≤ ch2 < 256) as Hr2 by (destruct Hs2 as [[-> _]|[? _]]; lia).
  rewrite pack_both_low, !pack_low, !pack_high by done.
  destruct (Z.eqb_spec (Z.lor ch1 ch2) 0) as [E|E].
  - apply Z.lor_eq_0_iff in E as [-> ->].
    destruct Hs1 as [[_ ->]|[? _]]; [|lia].
    destruct Hs2 as [[_ ->]|[? _]]; [|lia]. done.
  - assert (¬ (ch1 = 0 ∧ ch2 = 0)) as Hnz by (intros [-> ->]; by apply E).
    destruct (Z.eq_dec ch1 ch2) as [<-|Hne].
    + assert (ch1 ≠ 0) as Hc by lia.
      destruct Hs1 as [[-> _]|(_ & Hl1 & -> & Hd1)]; [done|].
      destruct Hs2 as [[-> _]|(_ & Hl2 & -> & Hd2)]; [done|].
      replace (ch1 - ch1) with 0 by lia. rewrite andb_false_r.
      unfold advance.
      assert ((0 <=? j1) && (j1 <=? Z.of_nat (length name1)) = true) as ->
        by zbool.
      assert ((0 <=? j2) && (j2 <=? Z.of_nat (length name2)) = true) as ->
        by zbool.
      cbn [mbind option_bind lex_compare]. rewrite Z.eqb_refl.
      apply IH; [done..|]. rewrite length_drop. lia.
    + assert (Z.lor (Z.shiftl j1 8) ch1 ≠ Z.lor (Z.shiftl j2 8) ch2) as Hr.
      { intros Heq. apply Hne.
        rewrite <- (pack_low j1 ch1), <- (pack_low j2 ch2) by done.
        by rewrite Heq. }
      apply Z.eqb_neq in Hr as ->.
      assert (ch1 - ch2 ≠ 0) as Hd by lia.
      apply Z.eqb_neq in Hd as ->. simpl. f_equal.
      destruct Hs1 as [[-> ->]|(? & _ & -> & _)];
        destruct Hs2 as [[-> ->]|(? & _ & -> & _)]; simpl; try lia.
      apply Z.eqb_neq in Hne as ->. done.
Qed.

Lemma ebcdic_variant_significant a b :
  ebcdic_variant fold a b →
  significant_ebcdic fold a = significant_ebcdic fold b.
Proof.
  induction 1 as [|c a b _ IH|c c' a b Hc Hc' Hd Hd' Hf _ IH|c a b Hc _ IH].
  - done.
  - simpl. by rewrite IH.
  - cbn [significant_ebcdic]. rewrite Hd, Hd', Hf, IH.
    apply Z.eqb_neq in Hc as ->. by apply Z.eqb_neq in Hc' as ->.
  - cbn [significant_ebcdic]. rewrite Hc.
    destruct (Z.eqb_spec (code c) 0) as [E|_]; [|done].
    rewrite E in Hc. discriminate.
Qed.

(** X15.  The EBCDIC comparator, for every case fold that never yields
    the terminator for another byte: on strings in which no run of
    EBCDIC delimiters reaches 8388607 characters,
    [uprv_compareEBCDICPropertyNames] is the three-way lexicographic
    comparison of the two streams of case-folded significant characters
    (what is left after skipping the EBCDIC hyphen 0x60, underscore 0x6d,
    space 0x40 and white space 0x05, 0x15, 0x25, 0x0b..0x0d); it is 0
    exactly when the streams are identical, and swapping the arguments
    negates it. *)
Theorem compare_ebcdic_lexicographic (a b : list ascii) :
  fits_ebcdic_packing a = true → fits_ebcdic_packing b = true →
  uprv_compareEBCDICPropertyNames fold a b =
    Some (lex_compare (significant_ebcdic fold a)
                      (significant_ebcdic fold b)) ∧
  (uprv_compareEBCDICPropertyNames fold a b = Some 0 ↔
     significant_ebcdic fold a = significant_ebcdic fold b) ∧
  ∃ r, uprv_compareEBCDICPropertyNames fold a b = Some r ∧
       uprv_compareEBCDICPropertyNames fold b a = Some (- r).
Proof.
  intros Ha Hb. unfold uprv_compareEBCDICPropertyNames.
  rewrite !compare_ebcdic_loop_spec by (done || lia).
  pose proof (significant_ebcdic_positive a) as Pa.
  pose proof (significant_ebcdic_positive b) as Pb.
  split; [done|]. split.
  - rewrite <- (lex_compare_zero _ _ Pa Pb).
    split; [by intros [= ->]|by intros ->].
  - eexists. split; [done|].
    by rewrite (lex_compare_antisym (significant_ebcdic fold a)
                  (significant_ebcdic fold b)).
Qed.

(** X16.  Loose matching in the EBCDIC universe: a name and a spelling
    of it that differs by inserted EBCDIC delimiters and by characters of
    the same case fold compare equal. *)
Theorem compare_ebcdic_variants_equal (a b : list ascii) :
  ebcdic_variant fold a b →
  fits_ebcdic_packing a = true → fits_ebcdic_packing b = true →
  uprv_compareEBCDICPropertyNames fold a b = Some 0.
Proof.
  intros Hv Ha Hb. unfold uprv_compareEBCDICPropertyNames.
  rewrite compare_ebcdic_loop_spec by (done || lia).
  rewrite (ebcdic_variant_significant a b Hv). f_equal.
  apply lex_compare_zero; try done; apply significant_ebcdic_positive.
Qed.
End EbcdicFacts.

Lemma ebcdic_letters_fold_keeps_nonzero :
  fold_keeps_nonzero ebcdic_letters_fold.
Proof.
  intros c. destruct c as [[] [] [] [] [] [] [] []]; vm_compute; congruence.
Qed.

Lemma compare_ebcdic_lexicographic_witness :
  let a := [char_of 0xc7; char_of 0x6d; char_of 0x83] in
  let b := [char_of 0x87; char_of 0xc3; char_of 0x40] in
  fold_keeps_nonzero ebcdic_letters_fold ∧
  fits_ebcdic_packing a = true ∧ fits_ebcdic_packing b = true ∧
  @uprv_compareEBCDICPropertyNames signed_chars ebcdic_letters_fold a b
    = Some 0.
Proof.
  intros a b.
  assert (fits_ebcdic_packing a = true) as Ha by reflexivity.
  assert (fits_ebcdic_packing b = true) as Hb by reflexivity.
  split_and!; [exact ebcdic_letters_fold_keeps_nonzero|exact Ha|exact Hb|].
  exact (proj1 (@compare_ebcdic_lexicographic signed_chars
                  ebcdic_letters_fold ebcdic_letters_fold_keeps_nonzero
                  a b Ha Hb)).
Defined.

Lemma compare_ebcdic_variants_equal_witness :
  let a := [char_of 0xc7; char_of 0x83] in
  let b := [char_of 0x87; char_of 0x60; char_of 0x83; char_of 0x15] in
  fold_keeps_nonzero ebcdic_letters_fold ∧
  @ebcdic_variant ebcdic_letters_fold a b ∧
  fits_ebcdic_packing a = true ∧ fits_ebcdic_packing b = true ∧
  @uprv_compareEBCDICPropertyNames unsigned_chars ebcdic_letters_fold a b
    = Some 0.
Proof.
  intros a b.
  assert (@ebcdic_variant ebcdic_letters_fold a b) as Hv.
  { apply ev_fold; [discriminate|discriminate|reflexivity..|].
    apply ev_insert; [reflexivity|].
    apply ev_keep. apply ev_insert; [reflexivity|]. apply ev_nil. }
  assert (fits_ebcdic_packing a = true) as Ha by reflexivity.
  assert (fits_ebcdic_packing b = true) as Hb by reflexivity.
  split_and!;
    [exact ebcdic_letters_fold_keeps_nonzero|exact Hv|exact Ha|exact Hb|].
  exact (@compare_ebcdic_variants_equal unsigned_chars
           ebcdic_letters_fold ebcdic_letters_fold_keeps_nonzero
           a b Hv Ha Hb).
Defined.

(** * The round trip at the facade *)

Section NameGroupReturns.
Context `{Platform}.

End NameGroupReturns.




Section RoundTrip.
Context `{Platform}.
Context {T : Type} `{ByteTrie T}.

End RoundTrip.




